(** * Bit-packed k-mers (package [kmers]): a shallow embedding of kmer.go

    A k-mer (k <= 32) over A/C/G/T is packed two bits per base into a Go
    [uint64].  The functions below follow kmer.go line by line.

    Conventions of the embedding:
    - a [uint64] is a [Z] in [0, 2^64); every operation that can leave that
      range is wrapped with [u64];
    - an [int] (64-bit) is a [Z] in [-2^63, 2^63), wrapped with [int];
    - a [byte] is a [Byte.byte], a [[]byte] is a [list byte];
    - a Go function returning [(uint64, error)] returns [Z * option error];
    - a Go function that may [panic] returns an [outcome]. *)

From Stdlib Require Import ZArith Lia List Bool.
From Stdlib Require Import Strings.Byte Strings.String.
From stdpp Require Import base list.
Import ListNotations.
Local Open Scope Z_scope.

(** ** Machine integers *)

Module Go.

(** Wrap-around of [uint64] and of [int]. *)
Definition u64 (z : Z) : Z := z mod 2 ^ 64.
Definition int (z : Z) : Z := (z + 2 ^ 63) mod 2 ^ 64 - 2 ^ 63.

(** [x << n] and [x >> n] on a [uint64] [x], for a shift count [n >= 0]
    (an unsigned count, a constant, or a signed count already known to be
    non-negative).  Go shifts by 64 or more give 0. *)
Definition shl (x n : Z) : Z := if 64 <=? n then 0 else u64 (Z.shiftl x n).
Definition shr (x n : Z) : Z := if 64 <=? n then 0 else Z.shiftr x n.

(** [x << n] on an [int] [x] with a constant count. *)
Definition int_shl (x n : Z) : Z := int (Z.shiftl x n).

(** [^x] on a [uint64]. *)
Definition not64 (x : Z) : Z := Z.lxor x (2 ^ 64 - 1).

(** [math/bits]: [Len64 x] is the minimum number of bits needed to represent
    [x] (0 for [x = 0]); [LeadingZeros64 x = 64 - Len64 x]. *)
Definition Len64 (x : Z) : Z := if x =? 0 then 0 else Z.log2 x + 1.
Definition LeadingZeros64 (x : Z) : Z := 64 - Len64 x.

(** [len(s)] as an [int]. *)
Definition len {A} (s : list A) : Z := Z.of_nat (length s).

End Go.
Import Go.

(** ** Errors, panics *)

Inductive error : Set :=
| ErrIllegalBase
| ErrKOverflow
| ErrPositionOverflow
| ErrLengthOverflow
| ErrCodeOverflow
| ErrKMismatch
| ErrNotConsecutiveKmers.

(** A panic is either [panic(err)] of the package, or one raised by the Go
    runtime (index out of range, negative shift amount, negative length in
    [make]). *)
Inductive panic : Set :=
| PanicErr (e : error)
| PanicRuntime.

Inductive outcome (A : Type) : Type :=
| Ret (a : A)
| Panic (p : panic).
Arguments Ret {A} a.
Arguments Panic {A} p.

Definition bind {A B} (m : outcome A) (f : A -> outcome B) : outcome B :=
  match m with
  | Ret a => f a
  | Panic p => Panic p
  end.

Notation "'do' x <- m ; k" := (bind m (fun x => k))
  (at level 10, x name, m at level 100, k at level 200).

(** [x >> n] with a signed count [n]: the runtime panics when [n < 0]. *)
Definition shr_int (x n : Z) : outcome Z :=
  if n <? 0 then Panic PanicRuntime else Ret (shr x n).

(** [x << n] on a [uint64] with a signed count [n]. *)
Definition shl_int (x n : Z) : outcome Z :=
  if n <? 0 then Panic PanicRuntime else Ret (shl x n).

(** [s[i]] for an [int] index. *)
Definition index {A} (s : list A) (i : Z) : outcome A :=
  if (i <? 0) || (len s <=? i) then Panic PanicRuntime
  else match s !! Z.to_nat i with
       | Some x => Ret x
       | None => Panic PanicRuntime
       end.

(** ** Lookup tables *)

(** [var base2bit = [256]uint64{...}], sixteen entries per row. *)
Definition base2bit_table : list Z :=
  [ 4; 4; 4; 4; 4; 4; 4; 4; 4; 4; 4; 4; 4; 4; 4; 4;
    4; 4; 4; 4; 4; 4; 4; 4; 4; 4; 4; 4; 4; 4; 4; 4;
    4; 4; 4; 4; 4; 4; 4; 4; 4; 4; 4; 4; 4; 4; 4; 4;
    4; 4; 4; 4; 4; 4; 4; 4; 4; 4; 4; 4; 4; 4; 4; 4;
    4; 0; 1; 1; 0; 4; 4; 2; 0; 4; 4; 2; 4; 0; 0; 4;
    4; 4; 0; 1; 3; 3; 0; 0; 4; 1; 4; 4; 4; 4; 4; 4;
    4; 0; 1; 1; 0; 4; 4; 2; 0; 4; 4; 2; 4; 0; 0; 4;
    4; 4; 0; 1; 3; 3; 0; 0; 4; 1; 4; 4; 4; 4; 4; 4;
    4; 4; 4; 4; 4; 4; 4; 4; 4; 4; 4; 4; 4; 4; 4; 4;
    4; 4; 4; 4; 4; 4; 4; 4; 4; 4; 4; 4; 4; 4; 4; 4;
    4; 4; 4; 4; 4; 4; 4; 4; 4; 4; 4; 4; 4; 4; 4; 4;
    4; 4; 4; 4; 4; 4; 4; 4; 4; 4; 4; 4; 4; 4; 4; 4;
    4; 4; 4; 4; 4; 4; 4; 4; 4; 4; 4; 4; 4; 4; 4; 4;
    4; 4; 4; 4; 4; 4; 4; 4; 4; 4; 4; 4; 4; 4; 4; 4;
    4; 4; 4; 4; 4; 4; 4; 4; 4; 4; 4; 4; 4; 4; 4; 4;
    4; 4; 4; 4; 4; 4; 4; 4; 4; 4; 4; 4; 4; 4; 4; 4 ].

(** [base2bit[b]]: a byte always indexes inside the 256 entries. *)
Definition base2bit (b : byte) : Z := nth (Byte.to_nat b) base2bit_table 0.

(** [var bit2base = [4]byte{'A', 'C', 'G', 'T'}], indexed by [code&3]. *)
Definition bit2base_table : list byte := ["A"; "C"; "G"; "T"]%byte.
Definition bit2base (v : Z) : byte := nth (Z.to_nat v) bit2base_table "000"%byte.

(** [func init()]: [MaxCode = make([]uint64, 33)], then for [i] from 1 to 32
    [MaxCode[i] = (1 << uint(1<<i)) - 1]. *)
Definition MaxCode_entry (i : Z) : Z := u64 (shl 1 (u64 (shl 1 i)) - 1).

Definition MaxCode_table : list Z :=
  fold_left (fun tbl i => <[Z.to_nat i := MaxCode_entry i]> tbl)
            (map Z.of_nat (seq 1 32)) (replicate 33 0).

Definition MaxCode (k : Z) : Z := nth (Z.to_nat k) MaxCode_table 0.

(** ** Encoding *)

(** The [for _, b := range kmer] loop of [Encode], [code] being the named
    result. *)
Fixpoint Encode_loop (kmer : list byte) (code : Z) : Z * option error :=
  match kmer with
  | [] => (code, None)
  | b :: rest =>
      let code := shl code 2 in
      let v := base2bit b in
      if v =? 4 then (code, Some ErrIllegalBase)
      else Encode_loop rest (Z.lor code v)
  end.

Definition Encode (kmer : list byte) : Z * option error :=
  if (len kmer =? 0) || (len kmer >? 32) then (0, Some ErrKOverflow)
  else Encode_loop kmer 0.

(** [bytes.Equal]. *)
Fixpoint bytes_Equal (a b : list byte) : bool :=
  match a, b with
  | [], [] => true
  | x :: a', y :: b' => Byte.eqb x y && bytes_Equal a' b'
  | _, _ => false
  end.

Definition MustEncodeFromFormerKmer (kmer leftKmer : list byte) (leftCode : Z)
  : outcome (Z * option error) :=
  do b <- index kmer (len kmer - 1);
  let v := base2bit b in
  if v =? 4 then Ret (leftCode, Some ErrIllegalBase)
  else
    Ret (Z.lor (shl (Z.land leftCode
                            (u64 (shl 1 (shl (u64 (len kmer - 1)) 1) - 1)))
                    2)
               v,
         None).

Definition EncodeFromFormerKmer (kmer leftKmer : list byte) (leftCode : Z)
  : outcome (Z * option error) :=
  if len kmer =? 0 then Ret (0, Some ErrKOverflow)
  else if negb (len kmer =? len leftKmer) then Ret (0, Some ErrKMismatch)
  else if negb (bytes_Equal (take (Z.to_nat (len kmer - 1)) kmer) (drop 1 leftKmer))
       then Ret (0, Some ErrNotConsecutiveKmers)
  else MustEncodeFromFormerKmer kmer leftKmer leftCode.

Definition MustEncodeFromLatterKmer (kmer rightKmer : list byte) (rightCode : Z)
  : outcome (Z * option error) :=
  do b <- index kmer 0;
  let v := base2bit b in
  if v =? 4 then Ret (rightCode, Some ErrIllegalBase)
  else
    Ret (Z.lor (shl v (shl (u64 (len kmer - 1)) 1)) (shr rightCode 2),
         None).

Definition EncodeFromLatterKmer (kmer rightKmer : list byte) (rightCode : Z)
  : outcome (Z * option error) :=
  if len kmer =? 0 then Ret (0, Some ErrKOverflow)
  else if negb (len kmer =? len rightKmer) then Ret (0, Some ErrKMismatch)
  else if negb (bytes_Equal (take (Z.to_nat (len kmer - 1)) rightKmer)
                            (take (Z.to_nat (len rightKmer - 1)) (drop 1 kmer)))
       then Ret (0, Some ErrNotConsecutiveKmers)
  else MustEncodeFromLatterKmer kmer rightKmer rightCode.

(** ** Reverse, complement *)

(** One line of the swap cascade:
    [c = (c >> s & m) | (c & m) << s]. *)
Definition swap (s m c : Z) : Z :=
  Z.lor (Z.land (shr c s) m) (shl (Z.land c m) s).

(** The five lines shared by [Reverse], [RevComp], [Canonical] and their
    [Must] variants. *)
Definition cascade (c : Z) : Z :=
  let c := swap 2 0x3333333333333333 c in
  let c := swap 4 0x0F0F0F0F0F0F0F0F c in
  let c := swap 8 0x00FF00FF00FF00FF c in
  let c := swap 16 0x0000FFFF0000FFFF c in
  let c := swap 32 0x00000000FFFFFFFF c in
  c.

(** The guard [if k <= 0 || k > 32 { panic(ErrKOverflow) }].  In kmer.go a
    checked function repeats, after this guard, the body of its [Must]
    variant word for word; here it calls the variant. *)
Definition check_k {A} (k : Z) (body : outcome A) : outcome A :=
  if (k <=? 0) || (k >? 32) then Panic (PanicErr ErrKOverflow) else body.

Definition MustReverse (code k : Z) : outcome Z :=
  let c := cascade code in
  shr_int c (int_shl (int (32 - k)) 1).

Definition Reverse (code k : Z) : outcome Z :=
  check_k k (MustReverse code k).

Definition MustComplement (code k : Z) : Z :=
  Z.lxor code (u64 (shl 1 (u64 (int_shl k 1)) - 1)).

Definition Complement (code k : Z) : outcome Z :=
  check_k k (Ret (MustComplement code k)).

Definition MustRevComp (code k : Z) : outcome Z :=
  let c := cascade (not64 code) in
  shr_int c (int_shl (int (32 - k)) 1).

Definition RevComp (code k : Z) : outcome Z :=
  check_k k (MustRevComp code k).

Definition MustCanonical (code k : Z) : outcome Z :=
  let c := cascade (not64 code) in
  do rc <- shr_int c (int_shl (int (32 - k)) 1);
  if rc <? code then Ret rc else Ret code.

Definition Canonical (code k : Z) : outcome Z :=
  check_k k (MustCanonical code k).

(** ** Decoding *)

(** [n] iterations of [for i := 0; i < k; i++] starting at index [i]; every
    write [kmer[k-1-i]] is inside the [k] bytes made by [make]. *)
Fixpoint Decode_loop (n : nat) (i k code : Z) (kmer : list byte) : list byte :=
  match n with
  | O => kmer
  | S n' =>
      let kmer := <[Z.to_nat (k - 1 - i) := bit2base (Z.land code 3)]> kmer in
      Decode_loop n' (i + 1) k (shr code 2) kmer
  end.

Definition MustDecode (code k : Z) : outcome (list byte) :=
  if k <? 0 then Panic PanicRuntime
  else Ret (Decode_loop (Z.to_nat k) 0 k code (replicate (Z.to_nat k) "000"%byte)).

Definition Decode (code k : Z) : outcome (list byte) :=
  check_k k
    (if code >? MaxCode k then Panic (PanicErr ErrCodeOverflow)
     else MustDecode code k).

(** ** Sub-k-mers *)

Definition MustBaseAt (code k i : Z) : outcome Z :=
  do c <- shr_int code (int_shl (int (int (k - i) - 1)) 1);
  Ret (Z.land c 3 mod 2 ^ 8).

Definition BaseAt (code k i : Z) : outcome Z :=
  if (i <? 0) || (i >=? k) then Panic (PanicErr ErrPositionOverflow)
  else MustBaseAt code k i.

Definition MustPrefix (code k n : Z) : outcome Z :=
  shr_int code (int_shl (int (k - n)) 1).

Definition Prefix (code k n : Z) : outcome Z :=
  if (n <? 1) || (n >? k) then Panic (PanicErr ErrLengthOverflow)
  else MustPrefix code k n.

Definition MustSuffix (code k i : Z) : outcome Z :=
  do m <- shl_int 1 (int_shl (int (k - i)) 1);
  Ret (Z.land code (u64 (m - 1))).

Definition Suffix (code k i : Z) : outcome Z :=
  if (i <? 0) || (i >=? k) then Panic (PanicErr ErrPositionOverflow)
  else MustSuffix code k i.

Definition MustLongestPrefix (code1 code2 k1 k2 : Z) : outcome Z :=
  if k1 >=? k2 then
    do code1 <- shr_int code1 (int_shl (int (k1 - k2)) 1);
    let d := int (32 - k2) in
    Ret (int (Z.shiftr (LeadingZeros64 (Z.lxor code1 code2)) 1 - d))
  else
    do code2 <- shr_int code2 (int_shl (int (k2 - k1)) 1);
    let d := int (32 - k1) in
    Ret (int (Z.shiftr (LeadingZeros64 (Z.lxor code1 code2)) 1 - d)).

Definition LongestPrefix (code1 code2 k1 k2 : Z) : outcome Z :=
  if (k1 <=? 0) || (k1 >? 32) || (k2 <=? 0) || (k2 >? 32)
  then Panic (PanicErr ErrKOverflow)
  else MustLongestPrefix code1 code2 k1 k2.

Definition MustHasPrefix (code prefix k1 k2 : Z) : outcome bool :=
  if k1 <? k2 then Ret false
  else
    do c <- shr_int code (int_shl (int (k1 - k2)) 1);
    Ret (c =? prefix).

Definition HasPrefix (code prefix k1 k2 : Z) : outcome bool :=
  if (k1 <=? 0) || (k1 >? 32) || (k2 <=? 0) || (k2 >? 32)
  then Panic (PanicErr ErrKOverflow)
  else MustHasPrefix code prefix k1 k2.

(** A byte sequence written as a string. *)
Definition bytes (s : string) : list byte := list_byte_of_string s.

(** ** The [KmerCode] wrapper (kmerCode.go)

    A Go [string] is an immutable byte sequence: it is a [list byte] here,
    and [string(b)] keeps the bytes of [b]. *)

Record KmerCode : Set := mkKmerCode { Code : Z; K : Z }.

(** [var bit2str = [4]string{"00", "01", "10", "11"}]. *)
Definition bit2str_table : list (list byte) :=
  [bytes "00"; bytes "01"; bytes "10"; bytes "11"].

(** [code, err := Encode(kmer)]; [KmerCode{}] is the zero value. *)
Definition NewKmerCode (kmer : list byte) : KmerCode * option error :=
  let '(code, err) := Encode kmer in
  match err with
  | Some _ => (mkKmerCode 0 0, err)
  | None => (mkKmerCode code (len kmer), err)
  end.

Definition NewKmerCodeFromFormerOne
           (kmer leftKmer : list byte) (preKcode : KmerCode)
  : outcome (KmerCode * option error) :=
  do r <- EncodeFromFormerKmer kmer leftKmer (Code preKcode);
  let '(code, err) := r in
  match err with
  | Some _ => Ret (mkKmerCode 0 0, err)
  | None => Ret (mkKmerCode code (len kmer), err)
  end.

Definition NewKmerCodeMustFromFormerOne
           (kmer leftKmer : list byte) (preKcode : KmerCode)
  : outcome (KmerCode * option error) :=
  do r <- MustEncodeFromFormerKmer kmer leftKmer (Code preKcode);
  let '(code, err) := r in
  match err with
  | Some _ => Ret (mkKmerCode 0 0, err)
  | None => Ret (mkKmerCode code (len kmer), err)
  end.

(** The methods of [KmerCode]. *)
Module KmerCode.

Definition Equal (kcode kcode2 : KmerCode) : bool :=
  (K kcode =? K kcode2) && (Code kcode =? Code kcode2).

Definition Rev (kcode : KmerCode) : outcome KmerCode :=
  do c <- MustReverse (Code kcode) (K kcode);
  Ret (mkKmerCode c (K kcode)).

Definition Comp (kcode : KmerCode) : KmerCode :=
  mkKmerCode (MustComplement (Code kcode) (K kcode)) (K kcode).

Definition RevComp (kcode : KmerCode) : outcome KmerCode :=
  do c <- MustRevComp (Code kcode) (K kcode);
  Ret (mkKmerCode c (K kcode)).

Definition Canonical (kcode : KmerCode) : outcome KmerCode :=
  do rcKcode <- RevComp kcode;
  if Code rcKcode <? Code kcode then Ret rcKcode else Ret kcode.

Definition Bytes (kcode : KmerCode) : outcome (list byte) :=
  Decode (Code kcode) (K kcode).

Definition String (kcode : KmerCode) : outcome (list byte) :=
  Decode (Code kcode) (K kcode).

(** The loop [for _, b := range ... { buf.WriteString(bit2str[base2bit[b]]) }]. *)
Fixpoint BitsString_loop (bs buf : list byte) : outcome (list byte) :=
  match bs with
  | [] => Ret buf
  | b :: rest =>
      do s <- index bit2str_table (base2bit b);
      BitsString_loop rest (buf ++ s)
  end.

Definition BitsString (kcode : KmerCode) : outcome (list byte) :=
  do bs <- Decode (Code kcode) (K kcode);
  BitsString_loop bs [].

End KmerCode.

(** * Vocabulary of the statements *)

(** Where bit [j] of [swap s m c] comes from. *)
Definition src (s m j : Z) : Z := if Z.testbit m j then j + s else j - s.

(** The mask of a line of the cascade selects the lower half of each pair of
    blocks, and the source index stays inside the word. *)
Definition line_ok (s m j : Z) : bool :=
  Bool.eqb (Z.testbit m (j - s)) (negb (Z.testbit m j))
  && (0 <=? src s m j) && (src s m j <? 64).

(** Position of the source of bit [j] after all five lines. *)
Definition rev_index (j : Z) : Z := 62 - j + 2 * (j mod 2).

(** The check that the five lines of [cascade], followed backwards from bit
    [j], stay inside the word and end at [rev_index j]. *)
Definition cascade_ok (j : Z) : bool :=
  let j5 := src 32 0x00000000FFFFFFFF j in
  let j4 := src 16 0x0000FFFF0000FFFF j5 in
  let j3 := src 8 0x00FF00FF00FF00FF j4 in
  let j2 := src 4 0x0F0F0F0F0F0F0F0F j3 in
  let j1 := src 2 0x3333333333333333 j2 in
  line_ok 32 0x00000000FFFFFFFF j
  && line_ok 16 0x0000FFFF0000FFFF j5
  && line_ok 8 0x00FF00FF00FF00FF j4
  && line_ok 4 0x0F0F0F0F0F0F0F0F j3
  && line_ok 2 0x3333333333333333 j2
  && (j1 =? rev_index j).

(** Position of the source of bit [j] when the [k] two-bit groups of a code
    are reversed. *)
Definition kmer_index (k j : Z) : Z := 2 * k - 2 - j + 2 * (j mod 2).

(** The bases of the low [n] two-bit groups of [c], most significant first. *)
Fixpoint bases (n : nat) (c : Z) : list byte :=
  match n with
  | O => []
  | S n' => bases n' (Z.shiftr c 2) ++ [bit2base (Z.land c 3)]
  end.

(** The value [Encode] computes when nothing overflows: base-4 digits, most
    significant first. *)
Definition pack_from (acc : Z) (s : list byte) : Z :=
  fold_left (fun a b => 4 * a + base2bit b) s acc.

Definition pack (s : list byte) : Z := pack_from 0 s.

(** A byte has an entry in [base2bit] when its value is not the marker 4. *)
Definition has_entry (b : byte) : Prop := base2bit b <> 4.

(** One of the four bases A, C, G, T, in upper case. *)
Definition is_ACGT (b : byte) : Prop := In b bit2base_table.


(** ASCII upper case; [base2bit] has the same rows for both cases. *)
Definition upper (b : byte) : byte :=
  let n := Byte.to_N b in
  if ((97 <=? n) && (n <=? 122))%N
  then match Byte.of_N (n - 32) with Some u => u | None => b end
  else b.


(** The window [s[i : i+k]]. *)
Definition window (s : list byte) (k i : nat) : list byte := take k (drop i s).

(** Sliding the window [n] times from position [i], feeding each code to the
    next call, as a caller of the incremental encoder does.  The walk stops
    at the first call that does not return a code. *)
Fixpoint slide (enc : list byte -> list byte -> Z -> outcome (Z * option error))
         (s : list byte) (k i n : nat) (pCode : Z)
  : list (outcome (Z * option error)) :=
  match n with
  | O => []
  | S n' =>
      let r := enc (window s k (S i)) (window s k i) pCode in
      r :: match r with
           | Ret (code, None) => slide enc s k (S i) n' code
           | _ => []
           end
  end.

(** An outcome that is a code below [2^n]. *)
Definition code_below (n : Z) (o : outcome Z) : Prop :=
  exists r, o = Ret r /\ 0 <= r < 2 ^ n.

(** The same for the encoders, which return a code and an error. *)
Definition encoded_below (n : Z) (o : outcome (Z * option error)) : Prop :=
  exists r e, o = Ret (r, e) /\ 0 <= r < 2 ^ n.

(** Length of the longest common prefix of two byte sequences. *)
Fixpoint common_prefix (a b : list byte) : nat :=
  match a, b with
  | x :: a', y :: b' => if Byte.eqb x y then S (common_prefix a' b') else O
  | _, _ => O
  end.

(** The count of leading zero groups, as [LongestPrefix] computes it. *)
Definition leading_groups (x m : Z) : Z :=
  Z.shiftr (LeadingZeros64 x) 1 - (32 - m).

(** The two-bit group number [j] of a code, counted from the least
    significant one. *)
Definition digit (c j : Z) : Z := Z.land (Z.shiftr c (2 * j)) 3.

(** The complement of a base: A with T, C with G. *)
Definition complement_base (b : byte) : byte :=
  if Byte.eqb b "A" then "T"%byte
  else if Byte.eqb b "C" then "G"%byte
  else if Byte.eqb b "G" then "C"%byte
  else if Byte.eqb b "T" then "A"%byte
  else b.

(** [bytes.HasPrefix]:
    [len(s) >= len(prefix) && Equal(s[0:len(prefix)], prefix)]. *)
Definition bytes_HasPrefix (s prefix : list byte) : bool :=
  (len prefix <=? len s) && bytes_Equal (take (length prefix) s) prefix.

(** [bytes.Compare]: lexicographic order on the byte values. *)
Fixpoint bytes_Compare (a b : list byte) : comparison :=
  match a, b with
  | [], [] => Eq
  | [], _ :: _ => Lt
  | _ :: _, [] => Gt
  | x :: a', y :: b' =>
      match N.compare (Byte.to_N x) (Byte.to_N y) with
      | Eq => bytes_Compare a' b'
      | c => c
      end
  end.

(** The [n] low bits of [c] written as the characters 0 and 1, most
    significant first. *)
Fixpoint binary (n : nat) (c : Z) : list byte :=
  match n with
  | O => []
  | S n' => binary n' (Z.shiftr c 1) ++ [if Z.odd c then "1"%byte else "0"%byte]
  end.

(** A [KmerCode] that keeps the invariant of the package. *)
Definition valid_KmerCode (kcode : KmerCode) : Prop :=
  1 <= K kcode <= 32 /\ 0 <= Code kcode < 2 ^ (2 * K kcode).

(** * Bit-level toolkit *)

Section Bits.

(** A number below [2^n] has no bit at or above position [n]. *)
Lemma testbit_high (x n j : Z) :
  0 <= x < 2 ^ n -> 0 <= n -> n <= j -> Z.testbit x j = false.
Proof.
  intros Hx Hn Hj.
  rewrite <- (Z.mod_small x (2 ^ n)) by exact Hx.
  apply Z.mod_pow2_bits_high. lia.
Qed.

(** Conversely, a non-negative number without bits from [n] on is below
    [2^n]. *)
Lemma bits_bound (x n : Z) :
  0 <= n -> 0 <= x ->
  (forall j, n <= j -> Z.testbit x j = false) ->
  x < 2 ^ n.
Proof.
  intros Hn Hx Hbits.
  assert (E : x = x mod 2 ^ n).
  { apply Z.bits_inj'. intros j Hj.
    rewrite Z.testbit_mod_pow2 by exact Hn.
    destruct (Z.ltb_spec j n) as [Hlt | Hge]; simpl; [reflexivity |].
    apply Hbits. exact Hge. }
  rewrite E. apply Z.mod_pos_bound. apply Z.pow_pos_nonneg; lia.
Qed.

Lemma lor_range (a b n : Z) :
  0 <= n -> 0 <= a < 2 ^ n -> 0 <= b < 2 ^ n -> 0 <= Z.lor a b < 2 ^ n.
Proof.
  intros Hn Ha Hb. split.
  - apply Z.lor_nonneg. lia.
  - apply bits_bound; [exact Hn | apply Z.lor_nonneg; lia |].
    intros j Hj. rewrite Z.lor_spec.
    rewrite (testbit_high a n j), (testbit_high b n j) by lia. reflexivity.
Qed.

Lemma land_range_r (a m n : Z) :
  0 <= n -> 0 <= m < 2 ^ n -> 0 <= Z.land a m < 2 ^ n.
Proof.
  intros Hn Hm.
  assert (H0 : 0 <= Z.land a m) by (apply Z.land_nonneg; lia).
  split; [exact H0 |].
  apply bits_bound; [exact Hn | exact H0 |].
  intros j Hj. rewrite Z.land_spec, (testbit_high m n j) by lia.
  apply andb_false_r.
Qed.

Lemma land_range_l (a m n : Z) :
  0 <= n -> 0 <= a < 2 ^ n -> 0 <= Z.land a m < 2 ^ n.
Proof. intros Hn Ha. rewrite Z.land_comm. apply land_range_r; assumption. Qed.

Lemma lxor_range (a b n : Z) :
  0 <= n -> 0 <= a < 2 ^ n -> 0 <= b < 2 ^ n -> 0 <= Z.lxor a b < 2 ^ n.
Proof.
  intros Hn Ha Hb.
  assert (H0 : 0 <= Z.lxor a b) by (apply Z.lxor_nonneg; lia).
  split; [exact H0 |].
  apply bits_bound; [exact Hn | exact H0 |].
  intros j Hj. rewrite Z.lxor_spec.
  rewrite (testbit_high a n j), (testbit_high b n j) by lia. reflexivity.
Qed.

Lemma shiftr_range (x n s : Z) :
  0 <= s <= n -> 0 <= x < 2 ^ n -> 0 <= Z.shiftr x s < 2 ^ (n - s).
Proof.
  intros Hs Hx.
  assert (H0 : 0 <= Z.shiftr x s) by (apply Z.shiftr_nonneg; lia).
  split; [exact H0 |].
  apply bits_bound; [lia | exact H0 |].
  intros j Hj. rewrite Z.shiftr_spec by lia.
  apply (testbit_high x n); lia.
Qed.

Lemma u64_range (z : Z) : 0 <= u64 z < 2 ^ 64.
Proof. unfold u64. apply Z.mod_pos_bound. reflexivity. Qed.

Lemma u64_small (z : Z) : 0 <= z < 2 ^ 64 -> u64 z = z.
Proof. intros H. unfold u64. apply Z.mod_small. exact H. Qed.

Lemma int_small (z : Z) : - 2 ^ 63 <= z < 2 ^ 63 -> int z = z.
Proof.
  intros H. unfold int. rewrite Z.mod_small; [lia |].
  change (2 ^ 64) with (2 ^ 63 + 2 ^ 63). lia.
Qed.

Lemma int_shl_1 (z : Z) : - 2 ^ 62 <= z < 2 ^ 62 -> int_shl z 1 = 2 * z.
Proof.
  intros H. unfold int_shl. rewrite Z.shiftl_mul_pow2 by lia.
  change (2 ^ 1) with 2. rewrite int_small; [lia |].
  change (2 ^ 63) with (2 * 2 ^ 62). lia.
Qed.

Lemma shl_range (x n : Z) : 0 <= shl x n < 2 ^ 64.
Proof.
  unfold shl. destruct (64 <=? n); [split; [lia | reflexivity] | apply u64_range].
Qed.

Lemma shr_range (x n : Z) : 0 <= n -> 0 <= x < 2 ^ 64 -> 0 <= shr x n < 2 ^ 64.
Proof.
  intros Hn Hx. unfold shr. destruct (64 <=? n); [split; [lia | reflexivity] |].
  split; [apply Z.shiftr_nonneg; lia |].
  apply bits_bound; [lia | apply Z.shiftr_nonneg; lia |].
  intros j Hj. rewrite Z.shiftr_spec by lia. apply (testbit_high x 64); lia.
Qed.

(** Bits of the two shifts, for a count below 64. *)
Lemma shl_testbit (x n j : Z) :
  0 <= n < 64 -> 0 <= j ->
  Z.testbit (shl x n) j = (j <? 64) && Z.testbit x (j - n).
Proof.
  intros Hn Hj. unfold shl, u64.
  destruct (Z.leb_spec 64 n) as [H | H]; [lia |].
  rewrite Z.testbit_mod_pow2 by lia.
  rewrite Z.shiftl_spec by lia. reflexivity.
Qed.

Lemma shr_testbit (x n j : Z) :
  0 <= n < 64 -> 0 <= j -> Z.testbit (shr x n) j = Z.testbit x (j + n).
Proof.
  intros Hn Hj. unfold shr.
  destruct (Z.leb_spec 64 n) as [H | H]; [lia |].
  apply Z.shiftr_spec. exact Hj.
Qed.

Lemma not64_testbit (x j : Z) :
  0 <= j -> Z.testbit (not64 x) j = xorb (Z.testbit x j) (j <? 64).
Proof.
  intros Hj. unfold not64. rewrite Z.lxor_spec.
  change (2 ^ 64 - 1) with (Z.ones 64).
  rewrite Z.testbit_ones by lia.
  destruct (Z.leb_spec 0 j); [reflexivity | lia].
Qed.

Lemma not64_range (x : Z) : 0 <= x < 2 ^ 64 -> 0 <= not64 x < 2 ^ 64.
Proof.
  intros Hx. unfold not64. apply lxor_range; [lia | exact Hx | lia].
Qed.

(** A property of the numbers [lo, lo + n) checked by running it. *)
Lemma forall_range (lo : Z) (n : nat) (P : Z -> bool) :
  forallb P (map (fun i => lo + Z.of_nat i) (seq 0 n)) = true ->
  forall j, lo <= j < lo + Z.of_nat n -> P j = true.
Proof.
  intros H j Hj. rewrite forallb_forall in H. apply H.
  apply in_map_iff. exists (Z.to_nat (j - lo)). split; [lia |].
  apply in_seq. lia.
Qed.

End Bits.

(** [enumerate k lo n] proves a boolean goal about [k] by running it on the
    [n] numbers from [lo] on. *)
Ltac enumerate k lo n :=
  match goal with
  | |- ?b = true =>
      let b' := eval pattern k in b in
      match b' with
      | ?F _ => apply (forall_range lo n F); [vm_compute; reflexivity | cbn; lia]
      end
  end.

(** * The swap cascade reverses the 32 two-bit groups of a word *)

Section Cascade.

Lemma swap_range (s m c : Z) : 0 <= m < 2 ^ 64 -> 0 <= swap s m c < 2 ^ 64.
Proof.
  intros Hm. unfold swap. apply lor_range; [lia | | apply shl_range].
  apply land_range_r; [lia | exact Hm].
Qed.

Lemma swap_testbit (s m c j : Z) :
  0 <= s < 64 -> 0 <= j < 64 ->
  Z.testbit (swap s m c) j =
    (Z.testbit c (j + s) && Z.testbit m j)
    || (Z.testbit c (j - s) && Z.testbit m (j - s)).
Proof.
  intros Hs Hj. unfold swap.
  rewrite Z.lor_spec, Z.land_spec, shr_testbit, shl_testbit, Z.land_spec by lia.
  destruct (Z.ltb_spec j 64); [reflexivity | lia].
Qed.

Lemma swap_src (s m c j : Z) :
  0 <= s < 64 -> 0 <= j < 64 ->
  Z.testbit m (j - s) = negb (Z.testbit m j) ->
  Z.testbit (swap s m c) j = Z.testbit c (src s m j).
Proof.
  intros Hs Hj Hm. rewrite swap_testbit by assumption.
  unfold src. rewrite Hm. destruct (Z.testbit m j); simpl.
  - rewrite andb_true_r, andb_false_r, orb_false_r. reflexivity.
  - rewrite andb_true_r, andb_false_r. reflexivity.
Qed.

Lemma cascade_ok_all (j : Z) : 0 <= j < 64 -> cascade_ok j = true.
Proof.
  intros Hj. apply (forall_range 0 64 cascade_ok); [vm_compute; reflexivity | lia].
Qed.

Lemma line_ok_elim (s m j : Z) :
  line_ok s m j = true ->
  Z.testbit m (j - s) = negb (Z.testbit m j) /\ 0 <= src s m j < 64.
Proof.
  unfold line_ok.
  rewrite !andb_true_iff, Bool.eqb_true_iff, Z.leb_le, Z.ltb_lt. tauto.
Qed.

Lemma cascade_testbit (c j : Z) :
  0 <= j < 64 -> Z.testbit (cascade c) j = Z.testbit c (rev_index j).
Proof.
  intros Hj. pose proof (cascade_ok_all j Hj) as Hok.
  unfold cascade_ok in Hok. rewrite !andb_true_iff in Hok.
  destruct Hok as [[[[[H5 H4] H3] H2] H1] Hidx].
  apply line_ok_elim in H5, H4, H3, H2, H1.
  apply Z.eqb_eq in Hidx.
  unfold cascade.
  rewrite swap_src by (lia || tauto).
  rewrite swap_src by (lia || tauto).
  rewrite swap_src by (lia || tauto).
  rewrite swap_src by (lia || tauto).
  rewrite swap_src by (lia || tauto).
  rewrite Hidx. reflexivity.
Qed.

Lemma cascade_range (c : Z) : 0 <= cascade c < 2 ^ 64.
Proof. unfold cascade. apply swap_range. lia. Qed.

Lemma rev_index_range (j : Z) : 0 <= j < 64 -> 0 <= rev_index j < 64.
Proof. intros Hj. unfold rev_index. Z.div_mod_to_equations. lia. Qed.

End Cascade.

(** * Reverse, complement and reverse complement on valid [k] *)

Lemma kmer_index_range (k j : Z) :
  0 <= j < 2 * k -> 0 <= kmer_index k j < 2 * k.
Proof. intros Hj. unfold kmer_index. Z.div_mod_to_equations. lia. Qed.

Lemma kmer_index_invol (k j : Z) : kmer_index k (kmer_index k j) = j.
Proof. unfold kmer_index. Z.div_mod_to_equations. lia. Qed.

Lemma ones_range (n : Z) : 0 <= n -> 0 <= Z.ones n < 2 ^ n.
Proof.
  intros Hn. rewrite Z.ones_equiv.
  assert (0 < 2 ^ n) by (apply Z.pow_pos_nonneg; lia). lia.
Qed.

Lemma complement_testbit (c k j : Z) :
  0 <= k -> 0 <= j ->
  Z.testbit (Z.lxor c (Z.ones (2 * k))) j = xorb (Z.testbit c j) (j <? 2 * k).
Proof.
  intros Hk Hj. rewrite Z.lxor_spec, Z.testbit_ones by lia.
  destruct (Z.leb_spec 0 j); [reflexivity | lia].
Qed.

Lemma complement_range (c k : Z) :
  0 <= k -> 0 <= c < 2 ^ (2 * k) ->
  0 <= Z.lxor c (Z.ones (2 * k)) < 2 ^ (2 * k).
Proof.
  intros Hk Hc. apply lxor_range; [lia | exact Hc | apply ones_range; lia].
Qed.

Section Transforms.

(** A valid k-mer size, as the guard of the checked functions accepts it. *)
Variable k : Z.
Hypothesis Hk : 1 <= k <= 32.

Lemma check_k_valid {A} (body : outcome A) : check_k k body = body.
Proof.
  unfold check_k.
  destruct (Z.leb_spec k 0); [lia |].
  destruct (Z.gtb_spec k 32); [lia | reflexivity].
Qed.

(** The mask [(1 << uint(k<<1)) - 1]; for [k = 32] the shift gives 0 and the
    subtraction wraps to all ones. *)
Lemma mask_ones : u64 (shl 1 (u64 (int_shl k 1)) - 1) = Z.ones (2 * k).
Proof. apply Z.eqb_eq. enumerate k 1 32%nat. Qed.

Lemma shift_count : int_shl (int (32 - k)) 1 = 64 - 2 * k.
Proof. rewrite int_small, int_shl_1 by lia. lia. Qed.

Lemma MustReverse_eq (c : Z) :
  MustReverse c k = Ret (Z.shiftr (cascade c) (64 - 2 * k)).
Proof.
  unfold MustReverse, shr_int, shr. rewrite shift_count.
  destruct (Z.ltb_spec (64 - 2 * k) 0); [lia |].
  destruct (Z.leb_spec 64 (64 - 2 * k)); [lia | reflexivity].
Qed.

Lemma Reverse_eq (c : Z) :
  Reverse c k = Ret (Z.shiftr (cascade c) (64 - 2 * k)).
Proof. unfold Reverse. rewrite check_k_valid. apply MustReverse_eq. Qed.

Lemma MustRevComp_eq (c : Z) :
  MustRevComp c k = Ret (Z.shiftr (cascade (not64 c)) (64 - 2 * k)).
Proof. apply (MustReverse_eq (not64 c)). Qed.

Lemma RevComp_eq (c : Z) :
  RevComp c k = Ret (Z.shiftr (cascade (not64 c)) (64 - 2 * k)).
Proof. unfold RevComp. rewrite check_k_valid. apply MustRevComp_eq. Qed.

Lemma MustComplement_eq (c : Z) :
  MustComplement c k = Z.lxor c (Z.ones (2 * k)).
Proof. unfold MustComplement. rewrite mask_ones. reflexivity. Qed.

Lemma Complement_eq (c : Z) :
  Complement c k = Ret (Z.lxor c (Z.ones (2 * k))).
Proof.
  unfold Complement. rewrite check_k_valid, MustComplement_eq. reflexivity.
Qed.

(** Bits of the reversed code and of the reverse complement. *)
Lemma reversed_testbit (c j : Z) :
  0 <= j ->
  Z.testbit (Z.shiftr (cascade c) (64 - 2 * k)) j =
    (j <? 2 * k) && Z.testbit c (kmer_index k j).
Proof.
  intros Hj. rewrite Z.shiftr_spec by exact Hj.
  destruct (Z.ltb_spec j (2 * k)) as [Hlt | Hge]; simpl.
  - rewrite cascade_testbit by lia. f_equal.
    unfold rev_index, kmer_index. Z.div_mod_to_equations. lia.
  - apply (testbit_high _ 64); [apply cascade_range | lia | lia].
Qed.

Lemma revcomp_testbit (c j : Z) :
  0 <= j ->
  Z.testbit (Z.shiftr (cascade (not64 c)) (64 - 2 * k)) j =
    (j <? 2 * k) && negb (Z.testbit c (kmer_index k j)).
Proof.
  intros Hj. rewrite reversed_testbit by assumption.
  destruct (Z.ltb_spec j (2 * k)) as [Hlt | Hge]; simpl; [| reflexivity].
  pose proof (kmer_index_range k j) as Hr.
  rewrite not64_testbit by lia.
  destruct (Z.ltb_spec (kmer_index k j) 64); [| lia].
  apply xorb_true_r.
Qed.

Lemma reversed_range (c : Z) :
  0 <= Z.shiftr (cascade c) (64 - 2 * k) < 2 ^ (2 * k).
Proof.
  pose proof (shiftr_range (cascade c) 64 (64 - 2 * k)) as H.
  replace (64 - (64 - 2 * k)) with (2 * k) in H by lia.
  apply H; [lia | apply cascade_range].
Qed.

(** The reverse complement is an involution on codes of length [k]. *)
Lemma revcomp_invol (c : Z) :
  0 <= c < 2 ^ (2 * k) ->
  Z.shiftr (cascade (not64 (Z.shiftr (cascade (not64 c)) (64 - 2 * k))))
           (64 - 2 * k) = c.
Proof.
  intros Hc. apply Z.bits_inj'. intros j Hj.
  rewrite revcomp_testbit by assumption.
  destruct (Z.ltb_spec j (2 * k)) as [Hlt | Hge]; simpl.
  - pose proof (kmer_index_range k j) as Hr.
    rewrite revcomp_testbit by lia.
    destruct (Z.ltb_spec (kmer_index k j) (2 * k)); [| lia]. simpl.
    rewrite negb_involutive, kmer_index_invol. reflexivity.
  - symmetry. apply (testbit_high c (2 * k)); lia.
Qed.

Lemma MustCanonical_eq (c : Z) :
  MustCanonical c k =
    Ret (let rc := Z.shiftr (cascade (not64 c)) (64 - 2 * k) in
         if rc <? c then rc else c).
Proof.
  unfold MustCanonical.
  pose proof (MustRevComp_eq c) as E. unfold MustRevComp in E.
  rewrite E. cbn [bind].
  destruct (Z.shiftr (cascade (not64 c)) (64 - 2 * k) <? c); reflexivity.
Qed.

Lemma Canonical_eq (c : Z) :
  Canonical c k =
    Ret (let rc := Z.shiftr (cascade (not64 c)) (64 - 2 * k) in
         if rc <? c then rc else c).
Proof. unfold Canonical. rewrite check_k_valid. apply MustCanonical_eq. Qed.

End Transforms.

(** * The fused reverse complement *)

(** C3. For every [k] in 1..32 and every code [c < 2^(2k)], the single-pass
    [RevComp c k] returns the same code as [Reverse] applied to
    [Complement c k], and the same code as [Complement] applied to
    [Reverse c k]; none of the calls panics. *)
Theorem RevComp_fuses_Reverse_Complement (c k : Z) :
  1 <= k <= 32 -> 0 <= c < 2 ^ (2 * k) ->
  exists rc,
    RevComp c k = Ret rc
    /\ (do x <- Complement c k; Reverse x k) = Ret rc
    /\ (do x <- Reverse c k; Complement x k) = Ret rc.
Proof.
  intros Hk Hc.
  exists (Z.shiftr (cascade (not64 c)) (64 - 2 * k)).
  rewrite RevComp_eq, Complement_eq, (Reverse_eq k Hk c) by exact Hk.
  cbn [bind]. rewrite Reverse_eq, Complement_eq by exact Hk.
  split; [reflexivity |]. split; f_equal; apply Z.bits_inj'; intros j Hj.
  - rewrite reversed_testbit, revcomp_testbit by assumption.
    destruct (Z.ltb_spec j (2 * k)) as [Hlt | Hge]; simpl; [| reflexivity].
    pose proof (kmer_index_range k j) as Hr.
    rewrite complement_testbit by lia.
    destruct (Z.ltb_spec (kmer_index k j) (2 * k)); [| lia].
    apply xorb_true_r.
  - rewrite complement_testbit, reversed_testbit, revcomp_testbit by lia.
    destruct (Z.ltb_spec j (2 * k)); simpl; [apply xorb_true_r | reflexivity].
Qed.

Lemma RevComp_fuses_Reverse_Complement_witness :
  exists rc,
    RevComp 27 4 = Ret rc
    /\ (do x <- Complement 27 4; Reverse x 4) = Ret rc
    /\ (do x <- Reverse 27 4; Complement x 4) = Ret rc.
Proof. apply (RevComp_fuses_Reverse_Complement 27 4); lia. Defined.

(** * Canonical k-mers *)

(** C6. For every [k] in 1..32 and every code [c < 2^(2k)], [Canonical c k]
    returns a code [m] with [Canonical m k = m] and [m <= c]. *)
Theorem Canonical_idempotent_and_below (c k : Z) :
  1 <= k <= 32 -> 0 <= c < 2 ^ (2 * k) ->
  exists m,
    Canonical c k = Ret m
    /\ Canonical m k = Ret m
    /\ m <= c.
Proof.
  intros Hk Hc. rewrite Canonical_eq by exact Hk. cbv zeta.
  set (rc := Z.shiftr (cascade (not64 c)) (64 - 2 * k)).
  destruct (Z.ltb_spec rc c) as [Hlt | Hge].
  - exists rc. split; [reflexivity |]. split; [| lia].
    rewrite Canonical_eq by exact Hk. cbv zeta.
    assert (E : Z.shiftr (cascade (not64 rc)) (64 - 2 * k) = c)
      by (apply revcomp_invol; assumption).
    rewrite E. destruct (Z.ltb_spec c rc); [lia | reflexivity].
  - exists c. split; [reflexivity |]. split; [| lia].
    rewrite Canonical_eq by exact Hk. cbv zeta. fold rc.
    destruct (Z.ltb_spec rc c); [lia | reflexivity].
Qed.

Lemma Canonical_idempotent_and_below_witness :
  exists m, Canonical 255 4 = Ret m /\ Canonical m 4 = Ret m /\ m <= 255.
Proof. apply (Canonical_idempotent_and_below 255 4); lia. Defined.

(** * What the decoding loop returns *)

Section Decoding.

Lemma length_bases (n : nat) (c : Z) : length (bases n c) = n.
Proof.
  revert c. induction n as [| n IH]; intros c; simpl; [reflexivity |].
  rewrite length_app, IH. simpl. lia.
Qed.

(** The loop fills the buffer from the back: after [n] more iterations from
    index [i], the bytes at positions [k-i-n .. k-i-1] are the bases of the
    low [n] groups of [code]. *)
Lemma Decode_loop_spec (k : Z) (n : nat) :
  forall (i code : Z) (kmer : list byte),
    0 <= i -> i + Z.of_nat n <= k -> length kmer = Z.to_nat k ->
    Decode_loop n i k code kmer =
      take (Z.to_nat (k - i - Z.of_nat n)) kmer
      ++ bases n code
      ++ drop (Z.to_nat (k - i)) kmer.
Proof.
  induction n as [| n IH]; intros i code kmer Hi Hn Hlen.
  - cbn [Decode_loop bases app]. rewrite Z.sub_0_r. symmetry. apply take_drop.
  - cbn [Decode_loop bases].
    rewrite IH by (rewrite ?length_insert; lia).
    rewrite take_insert_ge by lia.
    rewrite insert_take_drop by lia.
    rewrite drop_app_length' by (rewrite length_take; lia).
    replace (k - (i + 1) - Z.of_nat n) with (k - i - Z.of_nat (S n)) by lia.
    replace (S (Z.to_nat (k - 1 - i))) with (Z.to_nat (k - i)) by lia.
    rewrite <- !app_assoc. reflexivity.
Qed.

Lemma MustDecode_eq (c k : Z) :
  0 <= k -> MustDecode c k = Ret (bases (Z.to_nat k) c).
Proof.
  intros Hk. unfold MustDecode.
  destruct (Z.ltb_spec k 0); [lia |]. f_equal.
  rewrite (Decode_loop_spec k) by (rewrite ?length_replicate; lia).
  rewrite Z2Nat.id, Z.sub_0_r, Z.sub_diag by lia.
  rewrite take_0, drop_ge by (rewrite length_replicate; lia).
  apply app_nil_r.
Qed.

(** The table built by [init] is never below [4^k - 1], so [Decode] accepts
    every code of length [k]. *)
Lemma MaxCode_lower_bound (k : Z) : 1 <= k <= 32 -> 2 ^ (2 * k) - 1 <= MaxCode k.
Proof.
  intros Hk. apply Z.leb_le. enumerate k 1 32%nat.
Qed.

Lemma Decode_eq (c k : Z) :
  1 <= k <= 32 -> c < 2 ^ (2 * k) -> Decode c k = Ret (bases (Z.to_nat k) c).
Proof.
  intros Hk Hc. unfold Decode. rewrite check_k_valid by exact Hk.
  pose proof (MaxCode_lower_bound k Hk).
  destruct (Z.gtb_spec c (MaxCode k)); [lia |].
  apply MustDecode_eq. lia.
Qed.

End Decoding.

(** * What the encoding loop returns *)

Section Encoding.

Lemma base2bit_range (b : byte) : 0 <= base2bit b <= 4.
Proof. destruct b; vm_compute; split; discriminate. Qed.

Lemma base2bit_entry (b : byte) : has_entry b -> 0 <= base2bit b < 4.
Proof. unfold has_entry. pose proof (base2bit_range b). lia. Qed.

Lemma pow4_succ (n : Z) : 0 <= n -> 2 ^ (2 * (n + 1)) = 4 * 2 ^ (2 * n).
Proof.
  intros Hn. replace (2 * (n + 1)) with (2 + 2 * n) by lia.
  rewrite Z.pow_add_r by lia. reflexivity.
Qed.

Lemma pow4_pos (n : Z) : 0 <= n -> 0 < 2 ^ (2 * n).
Proof. intros Hn. apply Z.pow_pos_nonneg; lia. Qed.

Lemma pow4_le_64 (n : Z) : 0 <= n <= 32 -> 2 ^ (2 * n) <= 2 ^ 64.
Proof. intros Hn. apply Z.pow_le_mono_r; lia. Qed.

Lemma shiftr2_digit (p v : Z) : 0 <= v < 4 -> Z.shiftr (4 * p + v) 2 = p.
Proof.
  intros Hv. rewrite Z.shiftr_div_pow2 by lia. change (2 ^ 2) with 4.
  symmetry. apply (Z.div_unique _ _ _ v); lia.
Qed.

Lemma land3_digit (p v : Z) : 0 <= v < 4 -> Z.land (4 * p + v) 3 = v.
Proof.
  intros Hv. change 3 with (Z.ones 2). rewrite Z.land_ones by lia.
  change (2 ^ 2) with 4. symmetry. apply (Z.mod_unique _ _ p); lia.
Qed.

Lemma lor_digit (p v : Z) : 0 <= v < 4 -> Z.lor (4 * p) v = 4 * p + v.
Proof.
  intros Hv. symmetry. apply Z.add_nocarry_lor.
  apply Z.bits_inj'. intros j Hj. rewrite Z.land_spec, Z.bits_0.
  destruct (Z.ltb_spec j 2) as [Hlt | Hge].
  - replace (4 * p) with (p * 2 ^ 2) by lia.
    rewrite Z.mul_pow2_bits_low by lia. reflexivity.
  - rewrite (testbit_high v 2 j) by lia. apply andb_false_r.
Qed.

Lemma shl2_small (a : Z) : 0 <= a -> 4 * a < 2 ^ 64 -> shl a 2 = 4 * a.
Proof.
  intros Ha Hlt. unfold shl. cbn [Z.leb Z.compare Pos.compare Pos.compare_cont].
  rewrite Z.shiftl_mul_pow2 by lia. change (2 ^ 2) with 4.
  rewrite u64_small; lia.
Qed.

Lemma pack_from_snoc (acc : Z) (s : list byte) (b : byte) :
  pack_from acc (s ++ [b]) = 4 * pack_from acc s + base2bit b.
Proof. unfold pack_from. rewrite fold_left_app. reflexivity. Qed.

Lemma len_app {A} (s t : list A) : len (s ++ t) = len s + len t.
Proof. unfold len. rewrite length_app. lia. Qed.

Lemma len_cons {A} (x : A) (s : list A) : len (x :: s) = 1 + len s.
Proof. unfold len. cbn [length]. lia. Qed.

Lemma len_snoc {A} (s : list A) (x : A) : len (s ++ [x]) = len s + 1.
Proof. rewrite len_app. reflexivity. Qed.

Lemma len_nonneg {A} (s : list A) : 0 <= len s.
Proof. unfold len. lia. Qed.

Lemma pack_from_split (acc : Z) (s : list byte) :
  pack_from acc s = acc * 2 ^ (2 * len s) + pack s.
Proof.
  induction s as [| b s IH] using rev_ind.
  - unfold pack, pack_from, len. cbn. lia.
  - unfold pack. rewrite !pack_from_snoc, IH, len_app.
    change (len [b]) with 1. rewrite pow4_succ by apply len_nonneg.
    fold (pack s). lia.
Qed.

Lemma pack_cons (b : byte) (s : list byte) :
  pack (b :: s) = base2bit b * 2 ^ (2 * len s) + pack s.
Proof.
  unfold pack at 1. unfold pack_from. cbn [fold_left].
  fold (pack_from (4 * 0 + base2bit b) s).
  rewrite pack_from_split. lia.
Qed.

Lemma pack_range (s : list byte) :
  Forall has_entry s -> 0 <= pack s < 2 ^ (2 * len s).
Proof.
  induction s as [| b s IH] using rev_ind; intros Hs.
  - unfold pack, pack_from, len. cbn. lia.
  - apply Forall_app in Hs. destruct Hs as [Hs Hb].
    apply Forall_inv in Hb. apply base2bit_entry in Hb.
    specialize (IH Hs). unfold pack. rewrite pack_from_snoc. fold (pack s).
    rewrite len_app. change (len [b]) with 1.
    rewrite pow4_succ by apply len_nonneg. lia.
Qed.

(** The loop of [Encode] on bytes that all have an entry, as long as the
    accumulator and the remaining bytes fit in 32 groups. *)
Lemma Encode_loop_pack (s : list byte) :
  forall (acc m : Z),
    Forall has_entry s ->
    0 <= m -> m + len s <= 32 -> 0 <= acc < 2 ^ (2 * m) ->
    Encode_loop s acc = (pack_from acc s, None).
Proof.
  induction s as [| b s IH]; intros acc m Hs Hm Hlen Hacc.
  - reflexivity.
  - rewrite len_cons in Hlen. pose proof (len_nonneg s) as Hl.
    inversion Hs as [| ? ? Hb Hs']; subst.
    pose proof (base2bit_entry b Hb) as Hv.
    assert (Hpow : 2 ^ (2 * (m + 1)) <= 2 ^ 64) by (apply pow4_le_64; lia).
    rewrite pow4_succ in Hpow by lia.
    cbn [Encode_loop]. rewrite shl2_small by lia.
    destruct (Z.eqb_spec (base2bit b) 4) as [E | _]; [lia |].
    rewrite lor_digit by exact Hv.
    rewrite (IH _ (m + 1)); [reflexivity | exact Hs' | lia | lia |].
    rewrite pow4_succ by lia. lia.
Qed.


Lemma Encode_loop_legal (s : list byte) :
  forall acc, Forall has_entry s -> snd (Encode_loop s acc) = None.
Proof.
  induction s as [| b s IH]; intros acc Hs.
  - reflexivity.
  - inversion Hs as [| ? ? Hb Hs']; subst. cbn [Encode_loop].
    destruct (Z.eqb_spec (base2bit b) 4) as [E | NE]; [contradiction |].
    apply IH. exact Hs'.
Qed.

Lemma Encode_in_range (s : list byte) :
  1 <= len s <= 32 -> Encode s = Encode_loop s 0.
Proof.
  intros Hlen. unfold Encode.
  destruct (Z.eqb_spec (len s) 0); [lia |].
  destruct (Z.gtb_spec (len s) 32); [lia | reflexivity].
Qed.

Lemma Encode_pack (s : list byte) :
  1 <= len s <= 32 -> Forall has_entry s -> Encode s = (pack s, None).
Proof.
  intros Hlen Hs. rewrite Encode_in_range by exact Hlen.
  apply (Encode_loop_pack s 0 0); [exact Hs | lia | lia | cbn; lia].
Qed.

Lemma is_ACGT_entry (b : byte) : is_ACGT b -> has_entry b.
Proof.
  unfold is_ACGT, has_entry. cbn.
  intros [<- | [<- | [<- | [<- | []]]]]; vm_compute; discriminate.
Qed.

Lemma bit2base_base2bit (b : byte) : is_ACGT b -> bit2base (base2bit b) = b.
Proof.
  unfold is_ACGT. cbn. intros [<- | [<- | [<- | [<- | []]]]]; reflexivity.
Qed.

Lemma bases_pack (s : list byte) :
  Forall is_ACGT s -> bases (length s) (pack s) = s.
Proof.
  induction s as [| b s IH] using rev_ind; intros Hs.
  - reflexivity.
  - apply Forall_app in Hs. destruct Hs as [Hs Hb]. apply Forall_inv in Hb.
    pose proof (base2bit_entry b (is_ACGT_entry b Hb)) as Hv.
    rewrite length_app. cbn [length]. rewrite Nat.add_1_r. cbn [bases].
    unfold pack. rewrite pack_from_snoc. fold (pack s).
    rewrite shiftr2_digit, land3_digit by exact Hv.
    rewrite IH by exact Hs. rewrite bit2base_base2bit by exact Hb. reflexivity.
Qed.

End Encoding.

(** C2. For every sequence [s] over A, C, G, T with [1 <= len s <= 32],
    [Encode s] succeeds and [Decode] of its code at length [len s] returns
    exactly [s]. *)
Theorem Decode_Encode_roundtrip (s : list byte) :
  1 <= len s <= 32 -> Forall is_ACGT s ->
  exists code, Encode s = (code, None) /\ Decode code (len s) = Ret s.
Proof.
  intros Hlen Hs.
  assert (He : Forall has_entry s).
  { eapply Forall_impl; [exact Hs | exact is_ACGT_entry]. }
  exists (pack s). split; [apply Encode_pack; assumption |].
  pose proof (pack_range s He) as Hr.
  rewrite Decode_eq by lia. unfold len. rewrite Nat2Z.id.
  rewrite bases_pack by exact Hs. reflexivity.
Qed.

Lemma Decode_Encode_roundtrip_witness :
  exists code,
    Encode (bytes "GATTACA") = (code, None)
    /\ Decode code (len (bytes "GATTACA")) = Ret (bytes "GATTACA").
Proof.
  apply (Decode_Encode_roundtrip (bytes "GATTACA")).
  - vm_compute. split; discriminate.
  - repeat constructor; vm_compute; tauto.
Defined.

(** * The table [MaxCode] and the overflow check of [Decode] *)

(** C1, evaluated on the code.  The entry of [MaxCode] for [k = 3] is
    [2^(2^3) - 1 = 255], not [2^(2*3) - 1 = 63], and [Decode] accepts the
    code 64 at [k = 3] instead of panicking with [ErrCodeOverflow]. *)
Theorem MaxCode_entry_3 :
  MaxCode 3 = 255
  /\ 2 ^ (2 * 3) - 1 = 63
  /\ Decode 64 3 = Ret (bytes "AAA").
Proof. repeat split. Qed.

(** The entries of the table agree with [4^k - 1] at 1, 2 and 32 only. *)
Lemma MaxCode_agrees_iff (k : Z) :
  1 <= k <= 32 ->
  (MaxCode k = 2 ^ (2 * k) - 1 <-> k = 1 \/ k = 2 \/ k = 32).
Proof.
  intros Hk.
  assert (H : Bool.eqb (MaxCode k =? 2 ^ (2 * k) - 1)
                       ((k =? 1) || (k =? 2) || (k =? 32)) = true).
  { enumerate k 1 32%nat. }
  apply Bool.eqb_prop in H.
  rewrite <- Z.eqb_eq, H, !orb_true_iff, !Z.eqb_eq. tauto.
Qed.

(** * The worked example *)

(** C5, as the code computes it.  [Encode "ACGT"] returns 27 and no error,
    [Decode 27 4] returns "ACGT", [Complement 27 4] returns
    [0b11100100 = 228], and [Reverse 27 4] returns [0b11100100 = 228] as
    well (ACGT read backwards is TGCA). *)
Theorem worked_example_ACGT :
  Encode (bytes "ACGT") = (27, None)
  /\ Decode 27 4 = Ret (bytes "ACGT")
  /\ Complement 27 4 = Ret 228
  /\ Reverse 27 4 = Ret 228.
Proof. repeat split. Qed.

(** [Reverse 27 4] is not [0b11011000 = 216], so the example as the
    specification writes it does not hold. *)
Lemma worked_example_ACGT_Reverse_216_fails :
  ~ (Encode (bytes "ACGT") = (27, None)
     /\ Decode 27 4 = Ret (bytes "ACGT")
     /\ Complement 27 4 = Ret 228
     /\ Reverse 27 4 = Ret 216).
Proof. intros (_ & _ & _ & H). vm_compute in H. discriminate H. Qed.

(** * Illegal base at the new edge *)

Lemma index_last {A} (front : list A) (x : A) :
  index (front ++ [x]) (len (front ++ [x]) - 1) = Ret x.
Proof.
  unfold index. rewrite len_app. change (len [x]) with 1.
  pose proof (len_nonneg front).
  destruct (Z.ltb_spec (len front + 1 - 1) 0); [lia |].
  destruct (Z.leb_spec (len front + 1) (len front + 1 - 1)); [lia |].
  cbn [orb]. replace (Z.to_nat (len front + 1 - 1)) with (length front)
    by (unfold len; lia).
  rewrite list_lookup_middle by reflexivity. reflexivity.
Qed.

Lemma index_first {A} (x : A) (rest : list A) : index (x :: rest) 0 = Ret x.
Proof.
  unfold index. rewrite len_cons. pose proof (len_nonneg rest).
  destruct (Z.leb_spec (1 + len rest) 0); [lia | reflexivity].
Qed.

Lemma former_illegal (b : byte) (front other : list byte) (code : Z) :
  base2bit b = 4 ->
  MustEncodeFromFormerKmer (front ++ [b]) other code
    = Ret (code, Some ErrIllegalBase).
Proof.
  intros Hb. unfold MustEncodeFromFormerKmer. rewrite index_last. cbn [bind].
  rewrite Hb. reflexivity.
Qed.

Lemma latter_illegal (b : byte) (rest other : list byte) (code : Z) :
  base2bit b = 4 ->
  MustEncodeFromLatterKmer (b :: rest) other code
    = Ret (code, Some ErrIllegalBase).
Proof.
  intros Hb. unfold MustEncodeFromLatterKmer. rewrite index_first. cbn [bind].
  rewrite Hb. reflexivity.
Qed.

(** C10. When the new edge symbol has no entry in [base2bit], the trusting
    incremental encoders return [ErrIllegalBase] together with the code they
    were given, unchanged: [MustEncodeFromFormerKmer] returns [leftCode] and
    [MustEncodeFromLatterKmer] returns [rightCode]. *)
Theorem Must_incremental_illegal_edge
  (b : byte) (front rest other : list byte) (code : Z) :
  base2bit b = 4 ->
  MustEncodeFromFormerKmer (front ++ [b]) other code
    = Ret (code, Some ErrIllegalBase)
  /\ MustEncodeFromLatterKmer (b :: rest) other code
    = Ret (code, Some ErrIllegalBase).
Proof.
  intros Hb. split; [apply former_illegal | apply latter_illegal]; exact Hb.
Qed.

Lemma Must_incremental_illegal_edge_witness :
  MustEncodeFromFormerKmer (bytes "CGTX") (bytes "ACGT") 27
    = Ret (27, Some ErrIllegalBase)
  /\ MustEncodeFromLatterKmer (bytes "XACG") (bytes "ACGT") 27
    = Ret (27, Some ErrIllegalBase).
Proof.
  apply (Must_incremental_illegal_edge "X"%byte (bytes "CGT") (bytes "ACG")).
  reflexivity.
Defined.

(** * Errors of [Encode] and degenerate bases *)

Section EncodeErrors.







End EncodeErrors.



(** * Incremental encoding *)

Section Incremental.

Lemma former_mask (k : Z) :
  1 <= k <= 32 ->
  u64 (shl 1 (shl (u64 (k - 1)) 1) - 1) = Z.ones (2 * (k - 1)).
Proof.
  intros Hk. apply Z.eqb_eq. enumerate k 1 32%nat.
Qed.

Lemma latter_shift (k : Z) :
  1 <= k <= 32 -> shl (u64 (k - 1)) 1 = 2 * (k - 1).
Proof.
  intros Hk. apply Z.eqb_eq. enumerate k 1 32%nat.
Qed.

(** What the trusting forward encoder returns when the new last byte [b] has
    an entry: the low [k-1] groups of the given code, shifted by one group,
    with the two bits of [b] appended. *)
Lemma MustEncodeFromFormerKmer_eq (front other : list byte) (b : byte) (code : Z) :
  len front + 1 <= 32 -> has_entry b ->
  MustEncodeFromFormerKmer (front ++ [b]) other code =
    Ret (4 * (code mod 2 ^ (2 * len front)) + base2bit b, None).
Proof.
  intros Hlen Hb. pose proof (len_nonneg front) as Hl.
  pose proof (base2bit_entry b Hb) as Hv.
  unfold MustEncodeFromFormerKmer. rewrite index_last. cbn [bind].
  destruct (Z.eqb_spec (base2bit b) 4) as [E | _]; [lia |].
  rewrite len_app. change (len [b]) with 1.
  rewrite former_mask by lia.
  replace (len front + 1 - 1) with (len front) by lia.
  rewrite Z.land_ones by lia.
  assert (Hm : 0 <= code mod 2 ^ (2 * len front) < 2 ^ (2 * len front)).
  { apply Z.mod_pos_bound. apply pow4_pos. exact Hl. }
  assert (Hp : 2 ^ (2 * (len front + 1)) <= 2 ^ 64) by (apply pow4_le_64; lia).
  rewrite pow4_succ in Hp by lia.
  rewrite shl2_small by lia. rewrite lor_digit by exact Hv. reflexivity.
Qed.

(** The same result written with the bit operations of the source. *)
Lemma MustEncodeFromFormerKmer_formula
      (front other : list byte) (b : byte) (code : Z) :
  len front + 1 <= 32 -> has_entry b ->
  MustEncodeFromFormerKmer (front ++ [b]) other code =
    Ret (Z.lor (Z.shiftl (Z.land code (2 ^ (2 * len front) - 1)) 2) (base2bit b),
         None).
Proof.
  intros Hlen Hb. rewrite MustEncodeFromFormerKmer_eq by assumption.
  pose proof (len_nonneg front) as Hl.
  replace (2 ^ (2 * len front) - 1) with (Z.ones (2 * len front))
    by (rewrite Z.ones_equiv; lia).
  rewrite Z.land_ones by lia.
  rewrite Z.shiftl_mul_pow2 by lia. change (2 ^ 2) with 4.
  rewrite (Z.mul_comm _ 4), lor_digit by (apply base2bit_entry; exact Hb).
  reflexivity.
Qed.

Lemma bytes_Equal_refl (a : list byte) : bytes_Equal a a = true.
Proof.
  induction a as [| x a IH]; [reflexivity |]. cbn [bytes_Equal].
  rewrite IH, (byte_dec_lb (eq_refl x)). reflexivity.
Qed.

(** The checked forward encoder agrees with the trusting one on consecutive
    k-mers. *)
Lemma EncodeFromFormerKmer_consecutive (a b : byte) (mid : list byte) (code : Z) :
  EncodeFromFormerKmer (mid ++ [b]) (a :: mid) code =
  MustEncodeFromFormerKmer (mid ++ [b]) (a :: mid) code.
Proof.
  pose proof (len_nonneg mid) as Hl. unfold EncodeFromFormerKmer.
  rewrite len_snoc, len_cons.
  destruct (Z.eqb_spec (len mid + 1) 0); [lia |].
  destruct (Z.eqb_spec (len mid + 1) (1 + len mid)); [| lia]. cbn [negb].
  replace (Z.to_nat (len mid + 1 - 1)) with (length mid) by (unfold len; lia).
  rewrite take_app_length. cbn [drop].
  rewrite bytes_Equal_refl. reflexivity.
Qed.

(** One step of the window: from the code of [a :: mid] to the code of
    [mid ++ [b]]. *)
Lemma former_step (a b : byte) (mid : list byte) :
  len mid + 1 <= 32 -> Forall has_entry (a :: mid) -> has_entry b ->
  MustEncodeFromFormerKmer (mid ++ [b]) (a :: mid) (pack (a :: mid))
    = Ret (pack (mid ++ [b]), None).
Proof.
  intros Hlen Hw Hb. inversion Hw as [| ? ? Ha Hmid]; subst.
  rewrite MustEncodeFromFormerKmer_eq by assumption.
  pose proof (pack_range mid Hmid) as Hr.
  assert (E : pack (a :: mid) mod 2 ^ (2 * len mid) = pack mid).
  { rewrite pack_cons. symmetry.
    apply (Z.mod_unique _ _ (base2bit a)); lia. }
  rewrite E. unfold pack at 2. rewrite pack_from_snoc. reflexivity.
Qed.

Lemma window_step (s : list byte) (k i : nat) :
  (1 <= k)%nat -> (i + k < length s)%nat ->
  exists a mid b,
    window s k i = a :: mid
    /\ window s k (S i) = mid ++ [b]
    /\ S (length mid) = k.
Proof.
  intros Hk Hi. unfold window.
  destruct (drop i s) as [| a t] eqn:Ed.
  { apply (f_equal length) in Ed. rewrite length_drop in Ed. cbn in Ed. lia. }
  assert (Et : drop (S i) s = t).
  { replace (S i) with (i + 1)%nat by lia. rewrite <- drop_drop, Ed. reflexivity. }
  assert (Hlt : (k <= length t)%nat).
  { apply (f_equal length) in Et. rewrite length_drop in Et. lia. }
  destruct k as [| k']; [lia |].
  destruct (lookup_lt_is_Some_2 t k') as [b Hb]; [lia |].
  exists a, (take k' t), b. rewrite Et. cbn [take].
  split; [reflexivity |]. split; [apply take_S_r; exact Hb |].
  rewrite length_take. lia.
Qed.

Lemma window_entries (s : list byte) (k i : nat) :
  Forall has_entry s -> Forall has_entry (window s k i).
Proof. intros Hs. unfold window. apply Forall_take, Forall_drop. exact Hs. Qed.

Lemma slide_spec (enc : list byte -> list byte -> Z -> outcome (Z * option error))
      (s : list byte) (k : nat) :
  (1 <= k <= 32)%nat -> Forall has_entry s ->
  (forall a b mid code,
      enc (mid ++ [b]) (a :: mid) code =
      MustEncodeFromFormerKmer (mid ++ [b]) (a :: mid) code) ->
  forall n i,
    (i + n + k <= length s)%nat ->
    slide enc s k i n (pack (window s k i)) =
    map (fun j => Ret (pack (window s k j), None)) (seq (S i) n).
Proof.
  intros Hk Hs Henc. induction n as [| n IH]; intros i Hi; [reflexivity |].
  destruct (window_step s k i) as (a & mid & b & Ew & Ew' & Hlen); [lia | lia |].
  assert (Hstep : enc (window s k (S i)) (window s k i) (pack (window s k i))
                  = Ret (pack (window s k (S i)), None)).
  { pose proof (window_entries s k i Hs) as H1.
    pose proof (window_entries s k (S i) Hs) as H2.
    rewrite Ew in *. rewrite Ew' in *. rewrite Henc.
    apply Forall_app in H2. destruct H2 as [_ H2]. apply Forall_inv in H2.
    apply former_step; [unfold len; lia | exact H1 | exact H2]. }
  cbn [slide seq map]. rewrite Hstep. f_equal. apply IH. lia.
Qed.

End Incremental.

(** C4. For every sequence [s] of bytes that all have an entry in
    [base2bit], and every [k] in 1..32 below the length of [s]: sliding the
    window forward one byte at a time from the code [Encode] gives for the
    first window, [MustEncodeFromFormerKmer] and [EncodeFromFormerKmer]
    return at every step the very result of [Encode] on that step's window,
    which is a code and no error.  Each step computes
    [((old_code & (1<<(2(k-1)) - 1)) << 2) | bits(new last byte)]. *)
Theorem incremental_equals_direct (s : list byte) (k : nat) :
  (1 <= k <= 32)%nat -> (k < length s)%nat -> Forall has_entry s ->
  let steps := (length s - k)%nat in
  let start := fst (Encode (window s k 0)) in
  let direct := map (fun i => Ret (Encode (window s k i))) (seq 1 steps) in
  slide MustEncodeFromFormerKmer s k 0 steps start = direct
  /\ slide EncodeFromFormerKmer s k 0 steps start = direct
  /\ Forall (fun i => snd (Encode (window s k i)) = None) (seq 0 (S steps))
  /\ (forall i old_code,
        (i < steps)%nat ->
        exists b,
          last (window s k (S i)) = Some b
          /\ MustEncodeFromFormerKmer (window s k (S i)) (window s k i) old_code
             = Ret (Z.lor (Z.shiftl (Z.land old_code
                                            (2 ^ (2 * (Z.of_nat k - 1)) - 1))
                                    2)
                          (base2bit b),
                    None)).
Proof.
  intros Hk Hlen Hs steps start direct.
  assert (HE : forall i, (i + k <= length s)%nat ->
                 Encode (window s k i) = (pack (window s k i), None)).
  { intros i Hi. apply Encode_pack; [| apply window_entries; exact Hs].
    unfold len, window. rewrite length_take, length_drop. lia. }
  assert (Hd : direct =
               map (fun j => Ret (pack (window s k j), None)) (seq 1 steps)).
  { unfold direct. apply map_ext_in. intros i Hi. apply in_seq in Hi.
    rewrite HE by (unfold steps in Hi; lia). reflexivity. }
  unfold start. rewrite HE by lia. cbn [fst]. rewrite Hd.
  split; [| split; [| split]].
  - apply slide_spec; [exact Hk | exact Hs | reflexivity | unfold steps; lia].
  - apply slide_spec; [exact Hk | exact Hs | | unfold steps; lia].
    intros a b mid code. apply EncodeFromFormerKmer_consecutive.
  - apply Forall_forall. intros i Hi. apply list_elem_of_In, in_seq in Hi.
    rewrite HE by (unfold steps in Hi; lia). reflexivity.
  - intros i old_code Hi. unfold steps in Hi.
    destruct (window_step s k i) as (a & mid & b & Ew & Ew' & Hmid); [lia | lia |].
    pose proof (window_entries s k (S i) Hs) as Hw. rewrite Ew' in Hw.
    apply Forall_app in Hw. destruct Hw as [_ Hb]. apply Forall_inv in Hb.
    exists b. rewrite Ew, Ew'. split; [apply last_snoc |].
    rewrite MustEncodeFromFormerKmer_formula by (unfold len; lia || exact Hb).
    replace (Z.of_nat k - 1) with (len mid) by (unfold len; lia).
    reflexivity.
Qed.

Lemma incremental_equals_direct_witness :
  let s := bytes "ACTGNNTGGTCA" in
  slide MustEncodeFromFormerKmer s 5 0 7 (fst (Encode (window s 5 0)))
    = map (fun i => Ret (Encode (window s 5 i))) (seq 1 7)
  /\ slide EncodeFromFormerKmer s 5 0 7 (fst (Encode (window s 5 0)))
    = map (fun i => Ret (Encode (window s 5 i))) (seq 1 7)
  /\ Forall (fun i => snd (Encode (window s 5 i)) = None) (seq 0 8).
Proof.
  destruct (incremental_equals_direct (bytes "ACTGNNTGGTCA") 5)
    as (H1 & H2 & H3 & _).
  - lia.
  - vm_compute. lia.
  - repeat constructor; vm_compute; discriminate.
  - repeat split; assumption.
Defined.

(** * The representation invariant *)

Section Invariant.

Lemma pow4_mono (m n : Z) : 0 <= m <= n -> 2 ^ (2 * m) <= 2 ^ (2 * n).
Proof. intros H. apply Z.pow_le_mono_r; lia. Qed.

Lemma nonempty_snoc {A} (s : list A) :
  1 <= len s -> exists front x, s = front ++ [x].
Proof.
  destruct s as [| x s] using rev_ind; [unfold len; cbn; lia |].
  intros _. exists s, x. reflexivity.
Qed.

Lemma MustEncodeFromFormerKmer_below (kmer other : list byte) (code : Z) :
  1 <= len kmer <= 32 -> 0 <= code < 2 ^ (2 * len kmer) ->
  encoded_below (2 * len kmer) (MustEncodeFromFormerKmer kmer other code).
Proof.
  intros Hlen Hc. destruct (nonempty_snoc kmer) as (front & b & ->); [lia |].
  rewrite len_snoc in *. pose proof (len_nonneg front) as Hl.
  destruct (Z.eq_dec (base2bit b) 4) as [E | NE].
  - rewrite former_illegal by exact E. exists code, (Some ErrIllegalBase).
    split; [reflexivity | exact Hc].
  - rewrite MustEncodeFromFormerKmer_eq by (lia || exact NE).
    eexists _, None. split; [reflexivity |].
    pose proof (base2bit_entry b NE) as Hv.
    assert (Hm : 0 <= code mod 2 ^ (2 * len front) < 2 ^ (2 * len front)).
    { apply Z.mod_pos_bound. apply pow4_pos. exact Hl. }
    rewrite pow4_succ by lia. lia.
Qed.

Lemma shl_digit_below (v n : Z) :
  0 <= v < 4 -> 0 <= n < 64 -> 0 <= shl v n < 2 ^ (n + 2).
Proof.
  intros Hv Hn. pose proof (shl_range v n) as Hr. split; [lia |].
  apply bits_bound; [lia | lia |].
  intros j Hj. rewrite shl_testbit by lia.
  rewrite (testbit_high v 2) by lia. apply andb_false_r.
Qed.

Lemma MustEncodeFromLatterKmer_below (kmer other : list byte) (code : Z) :
  1 <= len kmer <= 32 -> 0 <= code < 2 ^ (2 * len kmer) ->
  encoded_below (2 * len kmer) (MustEncodeFromLatterKmer kmer other code).
Proof.
  intros Hlen Hc. destruct kmer as [| b rest]; [unfold len in Hlen; cbn in Hlen; lia |].
  destruct (Z.eq_dec (base2bit b) 4) as [E | NE].
  - rewrite latter_illegal by exact E. exists code, (Some ErrIllegalBase).
    split; [reflexivity | exact Hc].
  - unfold MustEncodeFromLatterKmer. rewrite index_first. cbn [bind].
    destruct (Z.eqb_spec (base2bit b) 4) as [E | _]; [contradiction |].
    eexists _, None. split; [reflexivity |].
    rewrite latter_shift by exact Hlen.
    pose proof (base2bit_entry b NE) as Hv.
    apply lor_range; [lia | |].
    + pose proof (shl_digit_below (base2bit b) (2 * (len (b :: rest) - 1)) Hv) as H.
      replace (2 * (len (b :: rest) - 1) + 2) with (2 * len (b :: rest)) in H by lia.
      apply H. lia.
    + unfold shr. cbn [Z.leb Z.compare Pos.compare Pos.compare_cont].
      pose proof (shiftr_range code (2 * len (b :: rest)) 2) as H.
      pose proof (Z.pow_le_mono_r 2 (2 * len (b :: rest) - 2) (2 * len (b :: rest))).
      lia.
Qed.

Lemma EncodeFromFormerKmer_below (kmer other : list byte) (code : Z) :
  1 <= len kmer <= 32 -> 0 <= code < 2 ^ (2 * len kmer) ->
  encoded_below (2 * len kmer) (EncodeFromFormerKmer kmer other code).
Proof.
  intros Hlen Hc. unfold EncodeFromFormerKmer.
  assert (H0 : 0 <= 0 < 2 ^ (2 * len kmer)) by lia.
  repeat match goal with
         | |- encoded_below _ (if ?c then _ else _) => destruct c
         | |- encoded_below _ (Ret (0, ?e)) => exists 0, e; split; [reflexivity | exact H0]
         end.
  apply MustEncodeFromFormerKmer_below; assumption.
Qed.

Lemma EncodeFromLatterKmer_below (kmer other : list byte) (code : Z) :
  1 <= len kmer <= 32 -> 0 <= code < 2 ^ (2 * len kmer) ->
  encoded_below (2 * len kmer) (EncodeFromLatterKmer kmer other code).
Proof.
  intros Hlen Hc. unfold EncodeFromLatterKmer.
  assert (H0 : 0 <= 0 < 2 ^ (2 * len kmer)) by lia.
  repeat match goal with
         | |- encoded_below _ (if ?c then _ else _) => destruct c
         | |- encoded_below _ (Ret (0, ?e)) => exists 0, e; split; [reflexivity | exact H0]
         end.
  apply MustEncodeFromLatterKmer_below; assumption.
Qed.

Lemma MustPrefix_eq (c k n : Z) :
  1 <= k <= 32 -> 1 <= n <= k ->
  MustPrefix c k n = Ret (Z.shiftr c (2 * (k - n))).
Proof.
  intros Hk Hn. unfold MustPrefix, shr_int, shr.
  rewrite int_small, int_shl_1 by lia.
  destruct (Z.ltb_spec (2 * (k - n)) 0); [lia |].
  destruct (Z.leb_spec 64 (2 * (k - n))); [lia | reflexivity].
Qed.

Lemma Prefix_eq (c k n : Z) :
  1 <= k <= 32 -> 1 <= n <= k ->
  Prefix c k n = Ret (Z.shiftr c (2 * (k - n))).
Proof.
  intros Hk Hn. unfold Prefix.
  destruct (Z.ltb_spec n 1); [lia |]. destruct (Z.gtb_spec n k); [lia |].
  apply MustPrefix_eq; assumption.
Qed.

Lemma suffix_mask (m : Z) : 1 <= m <= 32 -> u64 (shl 1 (2 * m) - 1) = Z.ones (2 * m).
Proof.
  intros Hm. apply Z.eqb_eq. enumerate m 1 32%nat.
Qed.

Lemma MustSuffix_eq (c k i : Z) :
  1 <= k <= 32 -> 0 <= i < k ->
  MustSuffix c k i = Ret (Z.land c (Z.ones (2 * (k - i)))).
Proof.
  intros Hk Hi. unfold MustSuffix, shl_int.
  rewrite int_small, int_shl_1 by lia.
  destruct (Z.ltb_spec (2 * (k - i)) 0); [lia |]. cbn [bind].
  rewrite suffix_mask by lia. reflexivity.
Qed.

Lemma Suffix_eq (c k i : Z) :
  1 <= k <= 32 -> 0 <= i < k ->
  Suffix c k i = Ret (Z.land c (Z.ones (2 * (k - i)))).
Proof.
  intros Hk Hi. unfold Suffix.
  destruct (Z.ltb_spec i 0); [lia |]. destruct (Z.geb_spec i k); [lia |].
  apply MustSuffix_eq; assumption.
Qed.

End Invariant.

(** C9. Given a valid [k] (1..32) and a code [c < 2^(2k)], [Reverse],
    [Complement], [RevComp] and [Canonical] (checked and trusting) return a
    code below [2^(2k)]; the four incremental encoders, called on a k-mer of
    [k] bytes with [c] as the neighbour's code, return a code below
    [2^(2k)]; [Prefix c k n] is below [2^(2n)] and [Suffix c k i] is below
    [2^(2(k-i))]. *)
Theorem codes_stay_in_range (c k : Z) :
  1 <= k <= 32 -> 0 <= c < 2 ^ (2 * k) ->
  (code_below (2 * k) (Reverse c k) /\ code_below (2 * k) (MustReverse c k))
  /\ (code_below (2 * k) (Complement c k)
      /\ 0 <= MustComplement c k < 2 ^ (2 * k))
  /\ (code_below (2 * k) (RevComp c k) /\ code_below (2 * k) (MustRevComp c k))
  /\ (code_below (2 * k) (Canonical c k)
      /\ code_below (2 * k) (MustCanonical c k))
  /\ (forall kmer other : list byte,
        len kmer = k ->
        encoded_below (2 * k) (MustEncodeFromFormerKmer kmer other c)
        /\ encoded_below (2 * k) (EncodeFromFormerKmer kmer other c)
        /\ encoded_below (2 * k) (MustEncodeFromLatterKmer kmer other c)
        /\ encoded_below (2 * k) (EncodeFromLatterKmer kmer other c))
  /\ (forall n, 1 <= n <= k ->
        code_below (2 * n) (Prefix c k n)
        /\ code_below (2 * n) (MustPrefix c k n))
  /\ (forall i, 0 <= i < k ->
        code_below (2 * (k - i)) (Suffix c k i)
        /\ code_below (2 * (k - i)) (MustSuffix c k i)).
Proof.
  intros Hk Hc. unfold code_below.
  pose proof (reversed_range k Hk c) as Hrev.
  pose proof (reversed_range k Hk (not64 c)) as Hrc.
  pose proof (complement_range c k ltac:(lia) Hc) as Hcomp.
  repeat apply conj.
  - rewrite Reverse_eq by exact Hk. eexists. split; [reflexivity | exact Hrev].
  - rewrite MustReverse_eq by exact Hk. eexists. split; [reflexivity | exact Hrev].
  - rewrite Complement_eq by exact Hk. eexists. split; [reflexivity | exact Hcomp].
  - rewrite MustComplement_eq by exact Hk. apply Hcomp.
  - rewrite MustComplement_eq by exact Hk. apply Hcomp.
  - rewrite RevComp_eq by exact Hk. eexists. split; [reflexivity | exact Hrc].
  - rewrite MustRevComp_eq by exact Hk. eexists. split; [reflexivity | exact Hrc].
  - rewrite Canonical_eq by exact Hk. eexists. split; [reflexivity |].
    cbv zeta. destruct (_ <? c); [exact Hrc | exact Hc].
  - rewrite MustCanonical_eq by exact Hk. eexists. split; [reflexivity |].
    cbv zeta. destruct (_ <? c); [exact Hrc | exact Hc].
  - intros kmer other <-.
    repeat apply conj;
      [ apply MustEncodeFromFormerKmer_below
      | apply EncodeFromFormerKmer_below
      | apply MustEncodeFromLatterKmer_below
      | apply EncodeFromLatterKmer_below ]; assumption.
  - intros n Hn.
    pose proof (shiftr_range c (2 * k) (2 * (k - n)) ltac:(lia) Hc) as Hp.
    replace (2 * k - 2 * (k - n)) with (2 * n) in Hp by lia.
    rewrite Prefix_eq, MustPrefix_eq by assumption.
    split; eexists; (split; [reflexivity | exact Hp]).
  - intros i Hi.
    assert (Hs : 0 <= Z.land c (Z.ones (2 * (k - i))) < 2 ^ (2 * (k - i))).
    { apply land_range_r; [lia | apply ones_range; lia]. }
    rewrite Suffix_eq, MustSuffix_eq by assumption.
    split; eexists; (split; [reflexivity | exact Hs]).
Qed.

Lemma codes_stay_in_range_witness :
  code_below (2 * 4) (Reverse 27 4)
  /\ code_below (2 * 4) (Complement 27 4)
  /\ code_below (2 * 4) (RevComp 27 4)
  /\ code_below (2 * 4) (Canonical 27 4)
  /\ encoded_below (2 * 4) (MustEncodeFromLatterKmer (bytes "TACG") (bytes "ACGT") 27)
  /\ code_below (2 * 3) (Prefix 27 4 3)
  /\ code_below (2 * (4 - 1)) (Suffix 27 4 1).
Proof.
  destruct (codes_stay_in_range 27 4)
    as ((H1 & _) & (H2 & _) & (H3 & _) & (H4 & _) & H5 & H6 & H7); [lia | lia |].
  repeat apply conj; try assumption.
  - apply (H5 (bytes "TACG") (bytes "ACGT")). reflexivity.
  - apply (H6 3). lia.
  - apply (H7 1). lia.
Defined.

(** * Longest common prefix *)

Section CommonPrefix.

(** [common_prefix] is what its name says: the two sequences agree on that
    many bytes, and differ at the next position when both have one. *)
Lemma common_prefix_spec (a b : list byte) :
  take (common_prefix a b) a = take (common_prefix a b) b
  /\ (forall x y, a !! common_prefix a b = Some x ->
                  b !! common_prefix a b = Some y -> x <> y).
Proof.
  revert b. induction a as [| x a IH]; intros [| y b]; cbn [common_prefix];
    try (split; [reflexivity | intros ? ? ? ?; discriminate]).
  destruct (Byte.eqb x y) eqn:E.
  - apply byte_dec_bl in E. subst y. destruct (IH b) as [Ht Hd].
    split; [cbn [take]; f_equal; exact Ht | exact Hd].
  - split; [reflexivity |]. cbn. intros ? ? [= <-] [= <-].
    apply eqb_false. exact E.
Qed.

Lemma common_prefix_le_l (a b : list byte) : (common_prefix a b <= length a)%nat.
Proof.
  revert b. induction a as [| x a IH]; intros [| y b]; cbn; try lia.
  destruct (Byte.eqb x y); [specialize (IH b) |]; lia.
Qed.

Lemma common_prefix_take_l (a b : list byte) :
  common_prefix a b = common_prefix (take (length b) a) b.
Proof.
  revert b. induction a as [| x a IH]; intros [| y b]; cbn; try reflexivity.
  destruct (Byte.eqb x y); [f_equal; apply IH | reflexivity].
Qed.

Lemma common_prefix_take_r (a b : list byte) :
  common_prefix a b = common_prefix a (take (length a) b).
Proof.
  revert b. induction a as [| x a IH]; intros [| y b]; cbn; try reflexivity.
  destruct (Byte.eqb x y); [f_equal; apply IH | reflexivity].
Qed.

(** [bases] read from the most significant group. *)
Lemma bases_msb (n : nat) :
  forall c,
    bases (S n) c =
    bit2base (Z.land (Z.shiftr c (2 * Z.of_nat n)) 3) :: bases n c.
Proof.
  induction n as [| n IH]; intros c.
  - cbn [bases app]. rewrite Z.shiftr_0_r. reflexivity.
  - change (bases (S (S n)) c)
      with (bases (S n) (Z.shiftr c 2) ++ [bit2base (Z.land c 3)]).
    rewrite IH. rewrite Z.shiftr_shiftr by lia.
    replace (2 + 2 * Z.of_nat n) with (2 * Z.of_nat (S n)) by lia.
    reflexivity.
Qed.

(** [bases n] reads the low [2n] bits only. *)
Lemma bases_ext (n : nat) :
  forall c c',
    (forall j, 0 <= j < 2 * Z.of_nat n -> Z.testbit c j = Z.testbit c' j) ->
    bases n c = bases n c'.
Proof.
  induction n as [| n IH]; intros c c' H; [reflexivity |].
  cbn [bases]. f_equal.
  - apply IH. intros j Hj. rewrite !Z.shiftr_spec by lia. apply H. lia.
  - do 2 f_equal. apply Z.bits_inj'. intros j Hj. rewrite !Z.land_spec.
    destruct (Z.ltb_spec j 2).
    + rewrite H by lia. reflexivity.
    + rewrite (testbit_high 3 2 j) by lia. rewrite !andb_false_r. reflexivity.
Qed.

Lemma bases_mod (n : nat) (c : Z) :
  bases n c = bases n (c mod 2 ^ (2 * Z.of_nat n)).
Proof.
  apply bases_ext. intros j Hj. rewrite Z.mod_pow2_bits_low by lia. reflexivity.
Qed.

(** The first [n] bases of a longer k-mer are the bases of its prefix code. *)
Lemma bases_take (n d : nat) :
  forall c,
    take n (bases (n + d) c) = bases n (Z.shiftr c (2 * Z.of_nat d)).
Proof.
  induction d as [| d IH]; intros c.
  - rewrite Nat.add_0_r, Z.shiftr_0_r.
    apply take_ge. rewrite length_bases. lia.
  - replace (n + S d)%nat with (S (n + d)) by lia. cbn [bases].
    rewrite take_app_le by (rewrite length_bases; lia).
    rewrite IH, Z.shiftr_shiftr by lia. f_equal. f_equal. lia.
Qed.

Lemma bit2base_inj (u v : Z) :
  0 <= u < 4 -> 0 <= v < 4 -> bit2base u = bit2base v -> u = v.
Proof.
  intros Hu Hv.
  assert (Eu : u = 0 \/ u = 1 \/ u = 2 \/ u = 3) by lia.
  assert (Ev : v = 0 \/ v = 1 \/ v = 2 \/ v = 3) by lia.
  destruct Eu as [-> | [-> | [-> | ->]]], Ev as [-> | [-> | [-> | ->]]];
    vm_compute; intros E; try reflexivity; discriminate E.
Qed.

Lemma leading_groups_top (x m : Z) :
  0 <= m -> 2 ^ (2 * m) <= x < 2 ^ (2 * (m + 1)) -> leading_groups x (m + 1) = 0.
Proof.
  intros Hm Hx. pose proof (pow4_pos m Hm) as Hp.
  assert (Hlo : 2 * m <= Z.log2 x) by (apply Z.log2_le_pow2; lia).
  assert (Hhi : Z.log2 x < 2 * (m + 1)) by (apply Z.log2_lt_pow2; lia).
  unfold leading_groups, LeadingZeros64, Len64.
  destruct (Z.eqb_spec x 0); [lia |].
  rewrite Z.shiftr_div_pow2 by lia. change (2 ^ 1) with 2.
  assert (E : Z.log2 x = 2 * m \/ Z.log2 x = 2 * m + 1) by lia.
  destruct E as [-> | ->].
  - replace (64 - (2 * m + 1)) with (1 + (31 - m) * 2) by lia.
    rewrite Z.div_add by lia. change (1 / 2) with 0. lia.
  - replace (64 - (2 * m + 1 + 1)) with ((31 - m) * 2) by lia.
    rewrite Z.div_mul by lia. lia.
Qed.

(** Two codes of the same length [m]: the common prefix of their bases is
    the number of leading zero groups of their xor. *)
Lemma common_prefix_bases (m : nat) :
  forall a b,
    0 <= a < 2 ^ (2 * Z.of_nat m) -> 0 <= b < 2 ^ (2 * Z.of_nat m) ->
    Z.of_nat (common_prefix (bases m a) (bases m b)) =
    leading_groups (Z.lxor a b) (Z.of_nat m).
Proof.
  induction m as [| m IH]; intros a b Ha Hb.
  - change (2 ^ (2 * Z.of_nat 0)) with 1 in Ha, Hb.
    replace a with 0 by lia. replace b with 0 by lia. reflexivity.
  - set (w := 2 * Z.of_nat m) in *.
    replace (2 * Z.of_nat (S m)) with (w + 2) in Ha, Hb by lia.
    assert (Hha : 0 <= Z.shiftr a w < 4).
    { pose proof (shiftr_range a (w + 2) w). replace (w + 2 - w) with 2 in *; lia. }
    assert (Hhb : 0 <= Z.shiftr b w < 4).
    { pose proof (shiftr_range b (w + 2) w). replace (w + 2 - w) with 2 in *; lia. }
    rewrite !bases_msb. fold w. change 3 with (Z.ones 2).
    rewrite !Z.land_ones by lia. change (2 ^ 2) with 4.
    rewrite !Z.mod_small by assumption.
    cbn [common_prefix].
    destruct (Byte.eqb (bit2base (Z.shiftr a w)) (bit2base (Z.shiftr b w))) eqn:E.
    + apply byte_dec_bl, bit2base_inj in E; [| assumption | assumption].
      rewrite (bases_mod m a), (bases_mod m b). fold w.
      rewrite Nat2Z.inj_succ, IH by (apply Z.mod_pos_bound; apply Z.pow_pos_nonneg; lia).
      fold w.
      assert (Ex : Z.lxor (a mod 2 ^ w) (b mod 2 ^ w) = Z.lxor a b).
      { apply Z.bits_inj'. intros j Hj. rewrite !Z.lxor_spec.
        rewrite !Z.testbit_mod_pow2 by lia.
        destruct (Z.ltb_spec j w); [reflexivity |]. cbn [andb xorb].
        replace j with (j - w + w) by lia.
        rewrite <- !Z.shiftr_spec by lia. rewrite E.
        symmetry. apply xorb_nilpotent. }
      rewrite Ex. unfold leading_groups. lia.
    + replace (Z.of_nat (S m)) with (Z.of_nat m + 1) by lia.
      rewrite leading_groups_top; [reflexivity | lia |].
      pose proof (lxor_range a b (w + 2)) as Hx.
      replace (2 * (Z.of_nat m + 1)) with (w + 2) by lia. fold w.
      split; [| lia].
      destruct (Z_lt_dec (Z.lxor a b) (2 ^ w)) as [Hlt | Hge]; [| lia].
      exfalso.
      assert (Hz : Z.shiftr (Z.lxor a b) w = 0).
      { rewrite Z.shiftr_div_pow2 by lia. apply Z.div_small. lia. }
      rewrite Z.shiftr_lxor in Hz. apply Z.lxor_eq in Hz.
      rewrite Hz in E. rewrite (byte_dec_lb (eq_refl _)) in E. discriminate E.
Qed.

End CommonPrefix.

Section LongestPrefixProof.

Lemma leading_groups_int (a b : Z) (m : nat) :
  (m <= 32)%nat ->
  0 <= a < 2 ^ (2 * Z.of_nat m) -> 0 <= b < 2 ^ (2 * Z.of_nat m) ->
  int (Z.shiftr (LeadingZeros64 (Z.lxor a b)) 1 - (32 - Z.of_nat m)) =
  Z.of_nat (common_prefix (bases m a) (bases m b)).
Proof.
  intros Hm Ha Hb. fold (leading_groups (Z.lxor a b) (Z.of_nat m)).
  rewrite <- common_prefix_bases by assumption.
  pose proof (common_prefix_le_l (bases m a) (bases m b)) as Hle.
  rewrite length_bases in Hle. apply int_small. lia.
Qed.

Lemma shr_int_groups (c d : Z) :
  0 <= d <= 31 -> shr_int c (int_shl (int d) 1) = Ret (Z.shiftr c (2 * d)).
Proof.
  intros Hd. rewrite int_small, int_shl_1 by lia. unfold shr_int, shr.
  destruct (Z.ltb_spec (2 * d) 0); [lia |].
  destruct (Z.leb_spec 64 (2 * d)); [lia | reflexivity].
Qed.

Lemma MustLongestPrefix_eq (c1 c2 k1 k2 : Z) :
  1 <= k1 <= 32 -> 1 <= k2 <= 32 ->
  0 <= c1 < 2 ^ (2 * k1) -> 0 <= c2 < 2 ^ (2 * k2) ->
  MustLongestPrefix c1 c2 k1 k2 =
    Ret (Z.of_nat (common_prefix (bases (Z.to_nat k1) c1)
                                 (bases (Z.to_nat k2) c2))).
Proof.
  intros Hk1 Hk2 Hc1 Hc2. unfold MustLongestPrefix.
  destruct (Z.geb_spec k1 k2) as [Hge | Hlt].
  - rewrite shr_int_groups by lia. cbn [bind]. f_equal.
    rewrite (int_small (32 - k2)) by lia.
    set (a := Z.shiftr c1 (2 * (k1 - k2))).
    assert (Ha : 0 <= a < 2 ^ (2 * k2)).
    { pose proof (shiftr_range c1 (2 * k1) (2 * (k1 - k2))) as H.
      replace (2 * k1 - 2 * (k1 - k2)) with (2 * k2) in H by lia.
      apply H; lia. }
    pose proof (leading_groups_int a c2 (Z.to_nat k2)) as H.
    rewrite Z2Nat.id in H by lia. rewrite H by (lia || assumption).
    rewrite (common_prefix_take_l (bases (Z.to_nat k1) c1)), length_bases.
    replace (Z.to_nat k1) with (Z.to_nat k2 + Z.to_nat (k1 - k2))%nat by lia.
    rewrite bases_take, Z2Nat.id by lia. reflexivity.
  - rewrite shr_int_groups by lia. cbn [bind]. f_equal.
    rewrite (int_small (32 - k1)) by lia.
    set (b := Z.shiftr c2 (2 * (k2 - k1))).
    assert (Hb : 0 <= b < 2 ^ (2 * k1)).
    { pose proof (shiftr_range c2 (2 * k2) (2 * (k2 - k1))) as H.
      replace (2 * k2 - 2 * (k2 - k1)) with (2 * k1) in H by lia.
      apply H; lia. }
    pose proof (leading_groups_int c1 b (Z.to_nat k1)) as H.
    rewrite Z2Nat.id in H by lia. rewrite H by (lia || assumption).
    rewrite (common_prefix_take_r _ (bases (Z.to_nat k2) c2)), length_bases.
    replace (Z.to_nat k2) with (Z.to_nat k1 + Z.to_nat (k2 - k1))%nat by lia.
    rewrite bases_take, Z2Nat.id by lia. reflexivity.
Qed.

Lemma LongestPrefix_valid (c1 c2 k1 k2 : Z) :
  1 <= k1 <= 32 -> 1 <= k2 <= 32 ->
  LongestPrefix c1 c2 k1 k2 = MustLongestPrefix c1 c2 k1 k2.
Proof.
  intros Hk1 Hk2. unfold LongestPrefix.
  destruct (Z.leb_spec k1 0); [lia |]. destruct (Z.gtb_spec k1 32); [lia |].
  destruct (Z.leb_spec k2 0); [lia |]. destruct (Z.gtb_spec k2 32); [lia |].
  reflexivity.
Qed.

Lemma common_prefix_of_prefix (a ext : list byte) :
  common_prefix a (a ++ ext) = length a /\ common_prefix (a ++ ext) a = length a.
Proof.
  induction a as [| x a [IH1 IH2]]; cbn; [destruct ext; split; reflexivity |].
  rewrite (byte_dec_lb (eq_refl x)), IH1, IH2. split; reflexivity.
Qed.

End LongestPrefixProof.

(** C7. For valid codes [c1] of length [k1] and [c2] of length [k2] (each
    [k] in 1..32, each code below [2^(2k)]), [LongestPrefix c1 c2 k1 k2]
    (and [MustLongestPrefix]) returns the length of the longest common
    prefix of the two decoded byte sequences.  In particular it returns
    [min k1 k2] when one sequence is a prefix of the other, and 0 when the
    first bytes differ. *)
Theorem LongestPrefix_correct (c1 c2 k1 k2 : Z) :
  1 <= k1 <= 32 -> 1 <= k2 <= 32 ->
  0 <= c1 < 2 ^ (2 * k1) -> 0 <= c2 < 2 ^ (2 * k2) ->
  exists s1 s2 : list byte,
    MustDecode c1 k1 = Ret s1
    /\ MustDecode c2 k2 = Ret s2
    /\ LongestPrefix c1 c2 k1 k2 = Ret (Z.of_nat (common_prefix s1 s2))
    /\ MustLongestPrefix c1 c2 k1 k2 = Ret (Z.of_nat (common_prefix s1 s2))
    /\ ((exists ext, s2 = s1 ++ ext) \/ (exists ext, s1 = s2 ++ ext) ->
        LongestPrefix c1 c2 k1 k2 = Ret (Z.min k1 k2))
    /\ (head s1 <> head s2 -> LongestPrefix c1 c2 k1 k2 = Ret 0).
Proof.
  intros Hk1 Hk2 Hc1 Hc2.
  exists (bases (Z.to_nat k1) c1), (bases (Z.to_nat k2) c2).
  rewrite !MustDecode_eq by lia.
  rewrite LongestPrefix_valid, MustLongestPrefix_eq by assumption.
  repeat apply conj; try reflexivity.
  - pose proof (length_bases (Z.to_nat k1) c1) as L1.
    pose proof (length_bases (Z.to_nat k2) c2) as L2.
    intros [[ext E] | [ext E]]; rewrite E in *; f_equal.
    + rewrite (proj1 (common_prefix_of_prefix _ ext)).
      rewrite length_app in L2. lia.
    + rewrite (proj2 (common_prefix_of_prefix _ ext)).
      rewrite length_app in L1. lia.
  - intros Hh. f_equal.
    destruct (bases (Z.to_nat k1) c1) as [| x s1], (bases (Z.to_nat k2) c2) as [| y s2];
      cbn [common_prefix]; try reflexivity.
    destruct (Byte.eqb x y) eqn:E; [| reflexivity].
    apply byte_dec_bl in E. subst y. cbn in Hh. contradiction.
Qed.

Lemma LongestPrefix_correct_witness :
  exists s1 s2 : list byte,
    MustDecode 121 6 = Ret s1
    /\ MustDecode 30 5 = Ret s2
    /\ LongestPrefix 121 30 6 5 = Ret (Z.of_nat (common_prefix s1 s2))
    /\ MustLongestPrefix 121 30 6 5 = Ret (Z.of_nat (common_prefix s1 s2))
    /\ ((exists ext, s2 = s1 ++ ext) \/ (exists ext, s1 = s2 ++ ext) ->
        LongestPrefix 121 30 6 5 = Ret (Z.min 6 5))
    /\ (head s1 <> head s2 -> LongestPrefix 121 30 6 5 = Ret 0).
Proof. apply (LongestPrefix_correct 121 30 6 5); lia. Defined.

(** * The bases of a code, group by group *)

Section Digits.

Lemma digit_testbit (c j b : Z) :
  0 <= j -> 0 <= b ->
  Z.testbit (digit c j) b = Z.testbit c (2 * j + b) && (b <? 2).
Proof.
  intros Hj Hb. unfold digit. change 3 with (Z.ones 2).
  rewrite Z.land_spec, Z.shiftr_spec, Z.testbit_ones by lia.
  destruct (Z.leb_spec 0 b); [| lia]. f_equal. f_equal. lia.
Qed.

Lemma digit_range (c j : Z) : 0 <= digit c j < 4.
Proof. unfold digit. apply (land_range_r _ 3 2); lia. Qed.

(** Two groups with the same two bits are equal. *)
Lemma digit_ext (c c' j j' : Z) :
  0 <= j -> 0 <= j' ->
  (forall b, 0 <= b < 2 -> Z.testbit c (2 * j + b) = Z.testbit c' (2 * j' + b)) ->
  digit c j = digit c' j'.
Proof.
  intros Hj Hj' H. apply Z.bits_inj'. intros b Hb.
  rewrite !digit_testbit by lia.
  destruct (Z.ltb_spec b 2); [rewrite H by lia; reflexivity |].
  rewrite !andb_false_r. reflexivity.
Qed.

Lemma rev_seq (n : nat) :
  rev (seq 0 n) = map (fun j => (n - 1 - j)%nat) (seq 0 n).
Proof.
  induction n as [| n IH]; [reflexivity |].
  rewrite seq_S at 1. rewrite rev_unit, IH. cbn [seq map Nat.add].
  f_equal; [lia |].
  rewrite <- seq_shift, map_map. apply map_ext. intros j. lia.
Qed.

(** The bases of a code are its groups, from group [n-1] down to group 0. *)
Lemma bases_digits (n : nat) (c : Z) :
  bases n c = map (fun j => bit2base (digit c (Z.of_nat j))) (rev (seq 0 n)).
Proof.
  induction n as [| n IH]; [reflexivity |].
  rewrite bases_msb, IH, seq_S, rev_unit. reflexivity.
Qed.

Lemma rev_bases (n : nat) (c : Z) :
  rev (bases n c) = map (fun j => bit2base (digit c (Z.of_nat j))) (seq 0 n).
Proof. rewrite bases_digits, <- map_rev, rev_involutive. reflexivity. Qed.

(** The bases of [c'] are those of [c] read backwards when group [j] of
    [c'] is group [n-1-j] of [c]. *)
Lemma bases_reversed (n : nat) (c c' : Z) :
  (forall j, (j < n)%nat ->
             digit c' (Z.of_nat (n - 1 - j)) = digit c (Z.of_nat j)) ->
  bases n c' = rev (bases n c).
Proof.
  intros H. rewrite rev_bases, bases_digits, rev_seq, map_map.
  apply map_ext_in. intros j Hj. apply in_seq in Hj.
  rewrite H by lia. reflexivity.
Qed.

(** The bases of [c'] are those of [c] mapped by [f] when its groups are. *)
Lemma bases_mapped (f : byte -> byte) (n : nat) (c c' : Z) :
  (forall j, (j < n)%nat ->
             bit2base (digit c' (Z.of_nat j)) = f (bit2base (digit c (Z.of_nat j)))) ->
  bases n c' = map f (bases n c).
Proof.
  intros H. rewrite !bases_digits, map_map.
  apply map_ext_in. intros j Hj. apply in_rev, in_seq in Hj.
  apply H. lia.
Qed.

Lemma complement_bit2base (v : Z) :
  0 <= v < 4 -> bit2base (Z.lxor v 3) = complement_base (bit2base v).
Proof.
  intros Hv. assert (E : v = 0 \/ v = 1 \/ v = 2 \/ v = 3) by lia.
  destruct E as [-> | [-> | [-> | ->]]]; reflexivity.
Qed.

Section ValidK.

Variable k : Z.
Hypothesis Hk : 1 <= k <= 32.

Lemma reversed_digit (c j : Z) :
  0 <= j < k ->
  digit (Z.shiftr (cascade c) (64 - 2 * k)) (k - 1 - j) = digit c j.
Proof.
  intros Hj. apply digit_ext; [lia | lia |]. intros b Hb.
  rewrite reversed_testbit by lia.
  destruct (Z.ltb_spec (2 * (k - 1 - j) + b) (2 * k)); [| lia].
  cbn [andb]. f_equal. unfold kmer_index. Z.div_mod_to_equations. lia.
Qed.

Lemma complement_digit (c j : Z) :
  0 <= j < k ->
  digit (Z.lxor c (Z.ones (2 * k))) j = Z.lxor (digit c j) 3.
Proof.
  intros Hj. apply Z.bits_inj'. intros b Hb.
  rewrite Z.lxor_spec, !digit_testbit, complement_testbit by lia.
  change 3 with (Z.ones 2). rewrite Z.testbit_ones by lia.
  destruct (Z.leb_spec 0 b); [| lia].
  destruct (Z.ltb_spec b 2).
  - destruct (Z.ltb_spec (2 * j + b) (2 * k)); [| lia].
    rewrite !andb_true_r. reflexivity.
  - rewrite !andb_false_r. reflexivity.
Qed.

Lemma bases_Reverse (c : Z) :
  bases (Z.to_nat k) (Z.shiftr (cascade c) (64 - 2 * k))
  = rev (bases (Z.to_nat k) c).
Proof.
  apply bases_reversed. intros j Hj.
  replace (Z.of_nat (Z.to_nat k - 1 - j)) with (k - 1 - Z.of_nat j) by lia.
  apply reversed_digit. lia.
Qed.

Lemma bases_Complement (c : Z) :
  bases (Z.to_nat k) (Z.lxor c (Z.ones (2 * k)))
  = map complement_base (bases (Z.to_nat k) c).
Proof.
  apply bases_mapped. intros j Hj.
  rewrite complement_digit by lia.
  apply complement_bit2base, digit_range.
Qed.

Lemma revcomp_as_composition (c : Z) :
  Z.shiftr (cascade (not64 c)) (64 - 2 * k) =
  Z.shiftr (cascade (Z.lxor c (Z.ones (2 * k)))) (64 - 2 * k).
Proof.
  apply Z.bits_inj'. intros j Hj.
  rewrite revcomp_testbit, reversed_testbit by assumption.
  destruct (Z.ltb_spec j (2 * k)) as [Hlt | Hge]; [| reflexivity].
  cbn [andb]. pose proof (kmer_index_range k j) as Hr.
  rewrite complement_testbit by lia.
  destruct (Z.ltb_spec (kmer_index k j) (2 * k)); [| lia].
  symmetry. apply xorb_true_r.
Qed.

End ValidK.

End Digits.

(** X1. For a valid [k] and a code [c] below [2^(2k)], decoding
    [Reverse c k] gives the bases of [c] in reverse order. *)
Theorem Reverse_decoded (c k : Z) :
  1 <= k <= 32 -> 0 <= c < 2 ^ (2 * k) ->
  exists s r,
    Decode c k = Ret s /\ Reverse c k = Ret r /\ Decode r k = Ret (rev s).
Proof.
  intros Hk Hc. eexists _, _.
  rewrite Reverse_eq, (Decode_eq c) by (assumption || lia).
  split; [reflexivity |]. split; [reflexivity |].
  rewrite Decode_eq by (exact Hk || apply reversed_range; exact Hk).
  rewrite bases_Reverse by exact Hk. reflexivity.
Qed.

Lemma Reverse_decoded_witness :
  exists s r,
    Decode 30 4 = Ret s /\ Reverse 30 4 = Ret r /\ Decode r 4 = Ret (rev s).
Proof. apply (Reverse_decoded 30 4); lia. Defined.

(** X2. For a valid [k] and a code [c] below [2^(2k)], decoding
    [Complement c k] gives the bases of [c] with A and T exchanged and C and
    G exchanged. *)
Theorem Complement_decoded (c k : Z) :
  1 <= k <= 32 -> 0 <= c < 2 ^ (2 * k) ->
  exists s r,
    Decode c k = Ret s /\ Complement c k = Ret r
    /\ Decode r k = Ret (map complement_base s).
Proof.
  intros Hk Hc. eexists _, _.
  rewrite Complement_eq, (Decode_eq c) by (assumption || lia).
  split; [reflexivity |]. split; [reflexivity |].
  rewrite Decode_eq by (exact Hk || apply complement_range; lia).
  rewrite bases_Complement by exact Hk. reflexivity.
Qed.

Lemma Complement_decoded_witness :
  exists s r,
    Decode 30 4 = Ret s /\ Complement 30 4 = Ret r
    /\ Decode r 4 = Ret (map complement_base s).
Proof. apply (Complement_decoded 30 4); lia. Defined.

(** X3. For a valid [k] and a code [c] below [2^(2k)], decoding
    [RevComp c k] gives the complemented bases of [c] in reverse order. *)
Theorem RevComp_decoded (c k : Z) :
  1 <= k <= 32 -> 0 <= c < 2 ^ (2 * k) ->
  exists s r,
    Decode c k = Ret s /\ RevComp c k = Ret r
    /\ Decode r k = Ret (rev (map complement_base s)).
Proof.
  intros Hk Hc. eexists _, _.
  rewrite RevComp_eq, (Decode_eq c) by (assumption || lia).
  split; [reflexivity |]. split; [reflexivity |].
  rewrite Decode_eq by (exact Hk || apply reversed_range; exact Hk).
  rewrite revcomp_as_composition, bases_Reverse, bases_Complement by exact Hk.
  reflexivity.
Qed.

Lemma RevComp_decoded_witness :
  exists s r,
    Decode 30 4 = Ret s /\ RevComp 30 4 = Ret r
    /\ Decode r 4 = Ret (rev (map complement_base s)).
Proof. apply (RevComp_decoded 30 4); lia. Defined.

(** * Involutions and the canonical strand *)

Lemma reversed_invol (c k : Z) :
  1 <= k <= 32 -> 0 <= c < 2 ^ (2 * k) ->
  Z.shiftr (cascade (Z.shiftr (cascade c) (64 - 2 * k))) (64 - 2 * k) = c.
Proof.
  intros Hk Hc. apply Z.bits_inj'. intros j Hj.
  rewrite reversed_testbit by assumption.
  destruct (Z.ltb_spec j (2 * k)) as [Hlt | Hge]; cbn [andb].
  - pose proof (kmer_index_range k j) as Hr.
    rewrite reversed_testbit by lia.
    destruct (Z.ltb_spec (kmer_index k j) (2 * k)); [| lia].
    cbn [andb]. rewrite kmer_index_invol. reflexivity.
  - symmetry. apply (testbit_high c (2 * k)); lia.
Qed.

Lemma complement_invol (c k : Z) :
  Z.lxor (Z.lxor c (Z.ones (2 * k))) (Z.ones (2 * k)) = c.
Proof. rewrite Z.lxor_assoc, Z.lxor_nilpotent. apply Z.lxor_0_r. Qed.

(** X4. On a valid [k] and a code below [2^(2k)], [Reverse], [Complement]
    and [RevComp] are involutions: applying one twice gives the code back. *)
Theorem transforms_are_involutions (c k : Z) :
  1 <= k <= 32 -> 0 <= c < 2 ^ (2 * k) ->
  (do r <- Reverse c k; Reverse r k) = Ret c
  /\ (do r <- Complement c k; Complement r k) = Ret c
  /\ (do r <- RevComp c k; RevComp r k) = Ret c.
Proof.
  intros Hk Hc.
  rewrite (Reverse_eq k Hk c), (Complement_eq k Hk c), (RevComp_eq k Hk c).
  cbn [bind]. rewrite Reverse_eq, Complement_eq, RevComp_eq by exact Hk.
  rewrite reversed_invol, complement_invol, revcomp_invol by assumption.
  repeat split.
Qed.

Lemma transforms_are_involutions_witness :
  (do r <- Reverse 30 4; Reverse r 4) = Ret 30
  /\ (do r <- Complement 30 4; Complement r 4) = Ret 30
  /\ (do r <- RevComp 30 4; RevComp r 4) = Ret 30.
Proof. apply (transforms_are_involutions 30 4); lia. Defined.

(** X5. On a valid [k] and a code [c] below [2^(2k)], [Canonical] returns
    the smaller of [c] and its reverse complement, and returns the same code
    for [c] and for the reverse complement of [c]. *)
Theorem Canonical_strand_independent (c k : Z) :
  1 <= k <= 32 -> 0 <= c < 2 ^ (2 * k) ->
  exists rc,
    RevComp c k = Ret rc
    /\ Canonical c k = Ret (Z.min c rc)
    /\ Canonical rc k = Ret (Z.min c rc)
    /\ MustCanonical c k = Ret (Z.min c rc).
Proof.
  intros Hk Hc. exists (Z.shiftr (cascade (not64 c)) (64 - 2 * k)).
  rewrite RevComp_eq, !Canonical_eq, MustCanonical_eq by exact Hk. cbv zeta.
  rewrite revcomp_invol by assumption.
  set (rc := Z.shiftr (cascade (not64 c)) (64 - 2 * k)).
  split; [reflexivity |].
  destruct (Z.ltb_spec rc c), (Z.ltb_spec c rc);
    repeat split; f_equal; lia.
Qed.

Lemma Canonical_strand_independent_witness :
  exists rc,
    RevComp 255 4 = Ret rc
    /\ Canonical 255 4 = Ret (Z.min 255 rc)
    /\ Canonical rc 4 = Ret (Z.min 255 rc)
    /\ MustCanonical 255 4 = Ret (Z.min 255 rc).
Proof. apply (Canonical_strand_independent 255 4); lia. Defined.

(** * Decoding, then encoding *)

Lemma bit2base_ACGT (v : Z) : 0 <= v < 4 -> is_ACGT (bit2base v).
Proof.
  intros Hv. assert (E : v = 0 \/ v = 1 \/ v = 2 \/ v = 3) by lia.
  unfold is_ACGT.
  destruct E as [-> | [-> | [-> | ->]]]; vm_compute; tauto.
Qed.

Lemma base2bit_bit2base (v : Z) : 0 <= v < 4 -> base2bit (bit2base v) = v.
Proof.
  intros Hv. assert (E : v = 0 \/ v = 1 \/ v = 2 \/ v = 3) by lia.
  destruct E as [-> | [-> | [-> | ->]]]; reflexivity.
Qed.

Lemma land3_range (c : Z) : 0 <= Z.land c 3 < 4.
Proof. apply (land_range_r c 3 2); lia. Qed.

Lemma bases_ACGT (n : nat) (c : Z) : Forall is_ACGT (bases n c).
Proof.
  revert c. induction n as [| n IH]; intros c; [constructor |].
  cbn [bases]. apply Forall_app. split; [apply IH |].
  constructor; [| constructor]. apply bit2base_ACGT, land3_range.
Qed.

Lemma pack_bases (n : nat) :
  forall c, 0 <= c < 2 ^ (2 * Z.of_nat n) -> pack (bases n c) = c.
Proof.
  induction n as [| n IH]; intros c Hc.
  - change (2 ^ (2 * Z.of_nat 0)) with 1 in Hc. cbn. lia.
  - cbn [bases]. unfold pack. rewrite pack_from_snoc. fold (pack (bases n (Z.shiftr c 2))).
    rewrite base2bit_bit2base by apply land3_range.
    assert (Hs : 0 <= Z.shiftr c 2 < 2 ^ (2 * Z.of_nat n)).
    { pose proof (shiftr_range c (2 * Z.of_nat (S n)) 2) as H.
      replace (2 * Z.of_nat (S n) - 2) with (2 * Z.of_nat n) in H by lia.
      apply H; lia. }
    rewrite IH by exact Hs.
    rewrite Z.shiftr_div_pow2 by lia. change 3 with (Z.ones 2).
    rewrite Z.land_ones by lia. change (2 ^ 2) with 4.
    pose proof (Z.div_mod c 4). lia.
Qed.

(** X6. For a valid [k] and a code [c] below [2^(2k)], [Decode c k] returns
    [k] bytes whose encoding is [c] again, without error. *)
Theorem Encode_Decode_roundtrip (c k : Z) :
  1 <= k <= 32 -> 0 <= c < 2 ^ (2 * k) ->
  exists s, Decode c k = Ret s /\ len s = k /\ Encode s = (c, None).
Proof.
  intros Hk Hc. exists (bases (Z.to_nat k) c).
  rewrite Decode_eq by (assumption || lia).
  assert (Hl : len (bases (Z.to_nat k) c) = k)
    by (unfold len; rewrite length_bases; lia).
  split; [reflexivity |]. split; [exact Hl |].
  rewrite Encode_pack.
  - rewrite pack_bases; [reflexivity |]. rewrite Z2Nat.id by lia. exact Hc.
  - lia.
  - eapply Forall_impl; [apply bases_ACGT | exact is_ACGT_entry].
Qed.

Lemma Encode_Decode_roundtrip_witness :
  exists s, Decode 27 4 = Ret s /\ len s = 4 /\ Encode s = (27, None).
Proof. apply (Encode_Decode_roundtrip 27 4); lia. Defined.



(** * Bases, prefixes and suffixes of a code *)

Section SubKmers.

Lemma bases_lookup (n : nat) (c : Z) :
  forall i,
    (i < n)%nat ->
    bases n c !! i = Some (bit2base (digit c (Z.of_nat (n - 1 - i)))).
Proof.
  induction n as [| n IH]; intros i Hi; [lia |].
  rewrite bases_msb. destruct i as [| i].
  - replace (S n - 1 - 0)%nat with n by lia. reflexivity.
  - replace (S n - 1 - S i)%nat with (n - 1 - i)%nat by lia.
    apply IH. lia.
Qed.

(** The bases of a code of [d + n] groups: those of its upper [d] groups,
    then those of its lower [n] groups. *)
Lemma bases_app (d n : nat) :
  forall c,
    bases (d + n) c = bases d (Z.shiftr c (2 * Z.of_nat n)) ++ bases n c.
Proof.
  induction n as [| n IH]; intros c.
  - rewrite Nat.add_0_r, Z.shiftr_0_r, app_nil_r. reflexivity.
  - replace (d + S n)%nat with (S (d + n)) by lia. cbn [bases].
    rewrite IH, Z.shiftr_shiftr, <- app_assoc by lia.
    do 3 f_equal. lia.
Qed.

Lemma bases_drop (d n : nat) (c : Z) :
  drop d (bases (d + n) c) = bases n (Z.land c (Z.ones (2 * Z.of_nat n))).
Proof.
  rewrite bases_app, drop_app_length' by (rewrite length_bases; reflexivity).
  rewrite Z.land_ones by lia. apply bases_mod.
Qed.

Lemma shr_int_groups_any (c d : Z) :
  0 <= c < 2 ^ 64 -> 0 <= d < 2 ^ 61 ->
  shr_int c (int_shl (int d) 1) = Ret (Z.shiftr c (2 * d)).
Proof.
  intros Hc Hd.
  assert (2 ^ 61 < 2 ^ 62 /\ 2 ^ 62 < 2 ^ 63) by (split; reflexivity).
  rewrite int_small, int_shl_1 by lia. unfold shr_int, shr.
  destruct (Z.ltb_spec (2 * d) 0); [lia |].
  destruct (Z.leb_spec 64 (2 * d)); [| reflexivity].
  f_equal. symmetry. apply Z.shiftr_eq_0; [lia |].
  destruct (Z.eq_dec c 0) as [-> | Hne]; [cbn; lia |].
  apply Z.log2_lt_pow2; [lia |].
  assert (2 ^ 64 <= 2 ^ (2 * d)) by (apply Z.pow_le_mono_r; lia). lia.
Qed.

Lemma MustBaseAt_eq (c k i : Z) :
  0 <= c < 2 ^ 64 -> 0 <= i < k -> k <= 2 ^ 60 ->
  MustBaseAt c k i = Ret (digit c (k - 1 - i)).
Proof.
  intros Hc Hi Hk. unfold MustBaseAt.
  assert (2 ^ 60 < 2 ^ 61 /\ 2 ^ 61 < 2 ^ 63) by (split; reflexivity).
  rewrite (int_small (k - i)) by lia.
  rewrite shr_int_groups_any by lia. cbn [bind]. f_equal.
  replace (k - i - 1) with (k - 1 - i) by lia. fold (digit c (k - 1 - i)).
  apply Z.mod_small. pose proof (digit_range c (k - 1 - i)).
  change (2 ^ 8) with 256. lia.
Qed.

Lemma bytes_Equal_eq (a b : list byte) : bytes_Equal a b = true <-> a = b.
Proof.
  split; [| intros ->; apply bytes_Equal_refl].
  revert b. induction a as [| x a IH]; intros [| y b]; cbn; try discriminate;
    [reflexivity |].
  intros H. apply andb_true_iff in H. destruct H as [Hx Hr].
  apply byte_dec_bl in Hx. subst y. f_equal. apply IH. exact Hr.
Qed.

Lemma bases_inj (n : nat) (a b : Z) :
  0 <= a < 2 ^ (2 * Z.of_nat n) -> 0 <= b < 2 ^ (2 * Z.of_nat n) ->
  bases n a = bases n b -> a = b.
Proof.
  intros Ha Hb E. rewrite <- (pack_bases n a Ha), <- (pack_bases n b Hb), E.
  reflexivity.
Qed.

End SubKmers.

(** X8. [BaseAt c k i] panics with [ErrPositionOverflow] exactly when [i]
    is outside [0, k); otherwise, for a code of a valid length [k], it and
    [MustBaseAt] return the two-bit value of the byte at position [i] of the
    decoded k-mer. *)
Theorem BaseAt_is_decoded_base (c k i : Z) :
  1 <= k <= 32 -> 0 <= c < 2 ^ (2 * k) ->
  (BaseAt c k i = Panic (PanicErr ErrPositionOverflow) <-> i < 0 \/ k <= i)
  /\ (0 <= i < k ->
      exists s v,
        Decode c k = Ret s
        /\ BaseAt c k i = Ret v
        /\ MustBaseAt c k i = Ret v
        /\ 0 <= v < 4
        /\ s !! Z.to_nat i = Some (bit2base v)).
Proof.
  intros Hk Hc.
  assert (Hc64 : 0 <= c < 2 ^ 64) by (pose proof (pow4_le_64 k); lia).
  assert (Hin : 0 <= i < k -> BaseAt c k i = Ret (digit c (k - 1 - i))).
  { intros Hi. unfold BaseAt.
    destruct (Z.ltb_spec i 0); [lia |]. destruct (Z.geb_spec i k); [lia |].
    apply MustBaseAt_eq; lia. }
  split.
  - split.
    + intros H. destruct (Z_lt_dec i 0); [lia |]. destruct (Z_le_dec k i); [lia |].
      rewrite Hin in H by lia. discriminate H.
    + intros Hi. unfold BaseAt.
      destruct (Z.ltb_spec i 0); [reflexivity |].
      destruct (Z.geb_spec i k); [reflexivity | lia].
  - intros Hi. exists (bases (Z.to_nat k) c), (digit c (k - 1 - i)).
    rewrite Decode_eq, Hin, MustBaseAt_eq by lia.
    repeat split; try apply digit_range.
    rewrite bases_lookup by lia. do 3 f_equal. lia.
Qed.

Lemma BaseAt_is_decoded_base_witness :
  (BaseAt 27 4 4 = Panic (PanicErr ErrPositionOverflow) <-> 4 < 0 \/ 4 <= 4)
  /\ exists s v,
       Decode 27 4 = Ret s
       /\ BaseAt 27 4 2 = Ret v
       /\ MustBaseAt 27 4 2 = Ret v
       /\ 0 <= v < 4
       /\ s !! Z.to_nat 2 = Some (bit2base v).
Proof.
  destruct (BaseAt_is_decoded_base 27 4 4) as [H1 _]; [lia | lia |].
  destruct (BaseAt_is_decoded_base 27 4 2) as [_ H2]; [lia | lia |].
  split; [exact H1 | apply H2; lia].
Defined.

(** X9. [Prefix c k n] panics with [ErrLengthOverflow] exactly when [n] is
    outside [1, k]; otherwise, for a code of a valid length [k], it returns
    the code whose decoding at length [n] is the first [n] bytes of the
    decoded k-mer. *)
Theorem Prefix_is_decoded_prefix (c k n : Z) :
  1 <= k <= 32 -> 0 <= c < 2 ^ (2 * k) ->
  (Prefix c k n = Panic (PanicErr ErrLengthOverflow) <-> n < 1 \/ k < n)
  /\ (1 <= n <= k ->
      exists s p,
        Decode c k = Ret s
        /\ Prefix c k n = Ret p
        /\ MustPrefix c k n = Ret p
        /\ Decode p n = Ret (take (Z.to_nat n) s)).
Proof.
  intros Hk Hc. split.
  - split.
    + intros H. destruct (Z_lt_dec n 1); [lia |]. destruct (Z_lt_dec k n); [lia |].
      rewrite Prefix_eq in H by lia. discriminate H.
    + intros Hn. unfold Prefix.
      destruct (Z.ltb_spec n 1); [reflexivity |].
      destruct (Z.gtb_spec n k); [reflexivity | lia].
  - intros Hn. exists (bases (Z.to_nat k) c), (Z.shiftr c (2 * (k - n))).
    rewrite Decode_eq, Prefix_eq, MustPrefix_eq by lia.
    repeat split.
    pose proof (shiftr_range c (2 * k) (2 * (k - n)) ltac:(lia) Hc) as Hp.
    replace (2 * k - 2 * (k - n)) with (2 * n) in Hp by lia.
    rewrite Decode_eq by lia. f_equal.
    replace (Z.to_nat k) with (Z.to_nat n + Z.to_nat (k - n))%nat by lia.
    rewrite bases_take, Z2Nat.id by lia. reflexivity.
Qed.

Lemma Prefix_is_decoded_prefix_witness :
  (Prefix 27 4 5 = Panic (PanicErr ErrLengthOverflow) <-> 5 < 1 \/ 4 < 5)
  /\ exists s p,
       Decode 27 4 = Ret s
       /\ Prefix 27 4 3 = Ret p
       /\ MustPrefix 27 4 3 = Ret p
       /\ Decode p 3 = Ret (take (Z.to_nat 3) s).
Proof.
  destruct (Prefix_is_decoded_prefix 27 4 5) as [H1 _]; [lia | lia |].
  destruct (Prefix_is_decoded_prefix 27 4 3) as [_ H2]; [lia | lia |].
  split; [exact H1 | apply H2; lia].
Defined.

(** X10. [Suffix c k i] panics with [ErrPositionOverflow] exactly when [i]
    is outside [0, k); otherwise, for a code of a valid length [k], it
    returns the code whose decoding at length [k - i] is the decoded k-mer
    from position [i] on. *)
Theorem Suffix_is_decoded_suffix (c k i : Z) :
  1 <= k <= 32 -> 0 <= c < 2 ^ (2 * k) ->
  (Suffix c k i = Panic (PanicErr ErrPositionOverflow) <-> i < 0 \/ k <= i)
  /\ (0 <= i < k ->
      exists s x,
        Decode c k = Ret s
        /\ Suffix c k i = Ret x
        /\ MustSuffix c k i = Ret x
        /\ Decode x (k - i) = Ret (drop (Z.to_nat i) s)).
Proof.
  intros Hk Hc. split.
  - split.
    + intros H. destruct (Z_lt_dec i 0); [lia |]. destruct (Z_le_dec k i); [lia |].
      rewrite Suffix_eq in H by lia. discriminate H.
    + intros Hi. unfold Suffix.
      destruct (Z.ltb_spec i 0); [reflexivity |].
      destruct (Z.geb_spec i k); [reflexivity | lia].
  - intros Hi.
    exists (bases (Z.to_nat k) c), (Z.land c (Z.ones (2 * (k - i)))).
    rewrite Decode_eq, Suffix_eq, MustSuffix_eq by lia.
    repeat split.
    assert (Hx : 0 <= Z.land c (Z.ones (2 * (k - i))) < 2 ^ (2 * (k - i))).
    { apply land_range_r; [lia | apply ones_range; lia]. }
    rewrite Decode_eq by lia. f_equal.
    replace (Z.to_nat k) with (Z.to_nat i + Z.to_nat (k - i))%nat by lia.
    rewrite bases_drop, Z2Nat.id by lia. reflexivity.
Qed.

Lemma Suffix_is_decoded_suffix_witness :
  (Suffix 27 4 (-1) = Panic (PanicErr ErrPositionOverflow) <-> -1 < 0 \/ 4 <= -1)
  /\ exists s x,
       Decode 27 4 = Ret s
       /\ Suffix 27 4 1 = Ret x
       /\ MustSuffix 27 4 1 = Ret x
       /\ Decode x (4 - 1) = Ret (drop (Z.to_nat 1) s).
Proof.
  destruct (Suffix_is_decoded_suffix 27 4 (-1)) as [H1 _]; [lia | lia |].
  destruct (Suffix_is_decoded_suffix 27 4 1) as [_ H2]; [lia | lia |].
  split; [exact H1 | apply H2; lia].
Defined.

(** X11. For a code of a valid length [k] and a cut [0 < n < k], the prefix
    of [n] bases shifted back by [k - n] groups, or'ed with the suffix from
    position [n], is the code again; the prefix of all [k] bases and the
    suffix from position 0 are the code itself. *)
Theorem Prefix_Suffix_rejoin (c k n : Z) :
  1 <= k <= 32 -> 0 <= c < 2 ^ (2 * k) ->
  Prefix c k k = Ret c
  /\ Suffix c k 0 = Ret c
  /\ (1 <= n < k ->
      exists p x,
        Prefix c k n = Ret p /\ Suffix c k n = Ret x
        /\ Z.lor (shl p (2 * (k - n))) x = c).
Proof.
  intros Hk Hc.
  assert (Hc64 : 0 <= c < 2 ^ 64) by (pose proof (pow4_le_64 k); lia).
  split; [| split].
  - rewrite Prefix_eq by lia. rewrite Z.sub_diag. reflexivity.
  - rewrite Suffix_eq by lia. rewrite Z.sub_0_r, Z.land_ones by lia.
    rewrite Z.mod_small by exact Hc. reflexivity.
  - intros Hn. eexists _, _.
    rewrite Prefix_eq, Suffix_eq by lia.
    split; [reflexivity |]. split; [reflexivity |].
    set (m := 2 * (k - n)).
    apply Z.bits_inj'. intros j Hj.
    rewrite Z.lor_spec, shl_testbit, Z.land_spec, Z.testbit_ones by (unfold m; lia).
    destruct (Z.leb_spec 0 j); [| lia]. cbn [andb].
    destruct (Z.ltb_spec j m) as [Hlt | Hge].
    + rewrite (Z.testbit_neg_r _ (j - m)) by lia.
      rewrite andb_false_r, andb_true_r. reflexivity.
    + rewrite Z.shiftr_spec by lia. replace (j - m + m) with j by lia.
      rewrite andb_false_r, orb_false_r.
      destruct (Z.ltb_spec j 64); [reflexivity |].
      symmetry. apply (testbit_high c 64); lia.
Qed.

Lemma Prefix_Suffix_rejoin_witness :
  Prefix 27 4 4 = Ret 27
  /\ Suffix 27 4 0 = Ret 27
  /\ exists p x,
       Prefix 27 4 1 = Ret p /\ Suffix 27 4 1 = Ret x
       /\ Z.lor (shl p (2 * (4 - 1))) x = 27.
Proof.
  destruct (Prefix_Suffix_rejoin 27 4 1) as (H1 & H2 & H3); [lia | lia |].
  split; [exact H1 |]. split; [exact H2 | apply H3; lia].
Defined.

(** * Prefix tests *)

Section PrefixTests.

Lemma MustHasPrefix_eq (c p k1 k2 : Z) :
  1 <= k1 <= 32 -> 1 <= k2 <= 32 ->
  MustHasPrefix c p k1 k2 =
    Ret (if k1 <? k2 then false else Z.shiftr c (2 * (k1 - k2)) =? p).
Proof.
  intros Hk1 Hk2. unfold MustHasPrefix.
  destruct (Z.ltb_spec k1 k2); [reflexivity |].
  rewrite shr_int_groups by lia. reflexivity.
Qed.

Lemma prefix_code_range (c k n : Z) :
  0 <= n <= k -> 0 <= c < 2 ^ (2 * k) ->
  0 <= Z.shiftr c (2 * (k - n)) < 2 ^ (2 * n).
Proof.
  intros Hn Hc. pose proof (shiftr_range c (2 * k) (2 * (k - n))) as Hr.
  replace (2 * k - 2 * (k - n)) with (2 * n) in Hr by lia.
  apply Hr; lia.
Qed.

Lemma HasPrefix_valid (c p k1 k2 : Z) :
  1 <= k1 <= 32 -> 1 <= k2 <= 32 ->
  HasPrefix c p k1 k2 = MustHasPrefix c p k1 k2.
Proof.
  intros Hk1 Hk2. unfold HasPrefix.
  destruct (Z.leb_spec k1 0); [lia |]. destruct (Z.gtb_spec k1 32); [lia |].
  destruct (Z.leb_spec k2 0); [lia |]. destruct (Z.gtb_spec k2 32); [lia |].
  reflexivity.
Qed.

Lemma bytes_HasPrefix_iff (s p : list byte) :
  bytes_HasPrefix s p = true <-> exists ext, s = p ++ ext.
Proof.
  unfold bytes_HasPrefix, len. rewrite andb_true_iff, Z.leb_le, bytes_Equal_eq.
  split.
  - intros [Hl E]. exists (drop (length p) s).
    rewrite <- E at 1. symmetry. apply take_drop.
  - intros [ext ->]. rewrite length_app, take_app_length. split; [lia | reflexivity].
Qed.

Lemma common_prefix_full (s p : list byte) :
  common_prefix s p = length p <-> exists ext, s = p ++ ext.
Proof.
  revert p. induction s as [| x s IH]; intros [| y p]; cbn [common_prefix length].
  - split; [exists []; reflexivity | reflexivity].
  - split; [discriminate | intros [ext E]; discriminate E].
  - split; [exists (x :: s); reflexivity | reflexivity].
  - destruct (Byte.eqb x y) eqn:E.
    + apply byte_dec_bl in E. subst y. split.
      * intros H. apply Nat.succ_inj, IH in H. destruct H as [ext ->].
        exists ext. reflexivity.
      * intros [ext H]. cbn [app] in H. f_equal. apply IH. exists ext. congruence.
    + split; [discriminate |]. intros [ext H]. cbn [app] in H.
      assert (x = y) by congruence. subst y.
      rewrite (byte_dec_lb (eq_refl x)) in E. discriminate E.
Qed.

End PrefixTests.

(** X12. For valid codes [c] of length [k1] and [p] of length [k2],
    [HasPrefix c p k1 k2] (and [MustHasPrefix]) returns what
    [bytes.HasPrefix] returns on the two decoded byte sequences. *)
Theorem HasPrefix_agrees_with_bytes (c p k1 k2 : Z) :
  1 <= k1 <= 32 -> 1 <= k2 <= 32 ->
  0 <= c < 2 ^ (2 * k1) -> 0 <= p < 2 ^ (2 * k2) ->
  exists s t,
    Decode c k1 = Ret s /\ Decode p k2 = Ret t
    /\ HasPrefix c p k1 k2 = Ret (bytes_HasPrefix s t)
    /\ MustHasPrefix c p k1 k2 = Ret (bytes_HasPrefix s t).
Proof.
  intros Hk1 Hk2 Hc Hp.
  exists (bases (Z.to_nat k1) c), (bases (Z.to_nat k2) p).
  rewrite !Decode_eq, HasPrefix_valid, MustHasPrefix_eq by lia.
  split; [reflexivity |]. split; [reflexivity |].
  assert (E : (if k1 <? k2 then false else Z.shiftr c (2 * (k1 - k2)) =? p)
              = bytes_HasPrefix (bases (Z.to_nat k1) c) (bases (Z.to_nat k2) p)).
  { unfold bytes_HasPrefix, len. rewrite !length_bases.
    destruct (Z.ltb_spec k1 k2) as [Hlt | Hge].
    - destruct (Z.leb_spec (Z.of_nat (Z.to_nat k2)) (Z.of_nat (Z.to_nat k1)));
        [lia | reflexivity].
    - destruct (Z.leb_spec (Z.of_nat (Z.to_nat k2)) (Z.of_nat (Z.to_nat k1)));
        [| lia].
      cbn [andb].
      replace (Z.to_nat k1) with (Z.to_nat k2 + Z.to_nat (k1 - k2))%nat by lia.
      rewrite bases_take, Z2Nat.id by lia.
      assert (Hs : 0 <= Z.shiftr c (2 * (k1 - k2)) < 2 ^ (2 * k2))
        by (apply prefix_code_range; lia).
      destruct (Z.eqb_spec (Z.shiftr c (2 * (k1 - k2))) p) as [-> | Hne].
      + symmetry. apply bytes_Equal_refl.
      + symmetry. apply not_true_is_false. intros Heq.
        apply bytes_Equal_eq, bases_inj in Heq; [contradiction | |];
          rewrite Z2Nat.id by lia; assumption. }
  rewrite E. split; reflexivity.
Qed.

Lemma HasPrefix_agrees_with_bytes_witness :
  exists s t,
    Decode 121 6 = Ret s /\ Decode 30 5 = Ret t
    /\ HasPrefix 121 30 6 5 = Ret (bytes_HasPrefix s t)
    /\ MustHasPrefix 121 30 6 5 = Ret (bytes_HasPrefix s t).
Proof. apply (HasPrefix_agrees_with_bytes 121 30 6 5); lia. Defined.

(** X13. For valid codes, [HasPrefix c p k1 k2] returns true exactly when
    [LongestPrefix c p k1 k2] returns [k2], the whole length of [p]. *)
Theorem HasPrefix_iff_LongestPrefix_full (c p k1 k2 : Z) :
  1 <= k1 <= 32 -> 1 <= k2 <= 32 ->
  0 <= c < 2 ^ (2 * k1) -> 0 <= p < 2 ^ (2 * k2) ->
  exists b n,
    HasPrefix c p k1 k2 = Ret b
    /\ LongestPrefix c p k1 k2 = Ret n
    /\ (b = true <-> n = k2).
Proof.
  intros Hk1 Hk2 Hc Hp. eexists _, _.
  rewrite HasPrefix_valid, MustHasPrefix_eq by lia.
  rewrite LongestPrefix_valid, MustLongestPrefix_eq by assumption.
  split; [reflexivity |]. split; [reflexivity |].
  set (s := bases (Z.to_nat k1) c). set (t := bases (Z.to_nat k2) p).
  assert (Hfull : Z.of_nat (common_prefix s t) = k2 <-> exists ext, s = t ++ ext).
  { pose proof (length_bases (Z.to_nat k2) p) as Hlt. fold t in Hlt.
    rewrite <- common_prefix_full, Hlt. lia. }
  rewrite Hfull. unfold s, t.
  destruct (Z.ltb_spec k1 k2) as [Hlt | Hge].
  - split; [discriminate |]. intros [ext E].
    apply (f_equal length) in E. rewrite length_app, !length_bases in E. lia.
  - rewrite Z.eqb_eq.
    assert (Hs : 0 <= Z.shiftr c (2 * (k1 - k2)) < 2 ^ (2 * k2))
      by (apply prefix_code_range; lia).
    assert (Ht : take (Z.to_nat k2) (bases (Z.to_nat k1) c)
                 = bases (Z.to_nat k2) (Z.shiftr c (2 * (k1 - k2)))).
    { replace (Z.to_nat k1) with (Z.to_nat k2 + Z.to_nat (k1 - k2))%nat by lia.
      rewrite bases_take, Z2Nat.id by lia. reflexivity. }
    split.
    + intros E. exists (drop (Z.to_nat k2) (bases (Z.to_nat k1) c)).
      rewrite <- E, <- Ht. symmetry. apply take_drop.
    + intros [ext E]. apply (bases_inj (Z.to_nat k2));
        [rewrite Z2Nat.id by lia; exact Hs | rewrite Z2Nat.id by lia; exact Hp |].
      rewrite <- Ht, E. apply take_app_length'. rewrite length_bases. reflexivity.
Qed.

Lemma HasPrefix_iff_LongestPrefix_full_witness :
  exists b n,
    HasPrefix 121 30 6 5 = Ret b
    /\ LongestPrefix 121 30 6 5 = Ret n
    /\ (b = true <-> n = 5).
Proof. apply (HasPrefix_iff_LongestPrefix_full 121 30 6 5); lia. Defined.

Lemma Byte_eqb_sym (x y : byte) : Byte.eqb x y = Byte.eqb y x.
Proof.
  destruct (Byte.eqb x y) eqn:E.
  - apply byte_dec_bl in E. subst y. symmetry. apply byte_dec_lb. reflexivity.
  - destruct (Byte.eqb y x) eqn:E'; [| reflexivity].
    apply byte_dec_bl in E'. subst y.
    rewrite (byte_dec_lb (eq_refl x)) in E. discriminate E.
Qed.

Lemma common_prefix_comm (a b : list byte) :
  common_prefix a b = common_prefix b a.
Proof.
  revert b. induction a as [| x a IH]; intros [| y b]; cbn; try reflexivity.
  rewrite (Byte_eqb_sym x y), IH. reflexivity.
Qed.

(** X14. For valid codes, [LongestPrefix] does not depend on the order of
    its two k-mers, and its result lies between 0 and the smaller of the
    two lengths. *)
Theorem LongestPrefix_symmetric_bounded (c1 c2 k1 k2 : Z) :
  1 <= k1 <= 32 -> 1 <= k2 <= 32 ->
  0 <= c1 < 2 ^ (2 * k1) -> 0 <= c2 < 2 ^ (2 * k2) ->
  exists n,
    LongestPrefix c1 c2 k1 k2 = Ret n
    /\ LongestPrefix c2 c1 k2 k1 = Ret n
    /\ 0 <= n <= Z.min k1 k2.
Proof.
  intros Hk1 Hk2 Hc1 Hc2. eexists.
  rewrite !LongestPrefix_valid, !MustLongestPrefix_eq by assumption.
  split; [reflexivity |]. split.
  - rewrite common_prefix_comm. reflexivity.
  - pose proof (common_prefix_le_l (bases (Z.to_nat k1) c1) (bases (Z.to_nat k2) c2)) as H1.
    pose proof (common_prefix_le_l (bases (Z.to_nat k2) c2) (bases (Z.to_nat k1) c1)) as H2.
    rewrite common_prefix_comm in H2. rewrite length_bases in H1, H2. lia.
Qed.

Lemma LongestPrefix_symmetric_bounded_witness :
  exists n,
    LongestPrefix 121 30 6 5 = Ret n
    /\ LongestPrefix 30 121 5 6 = Ret n
    /\ 0 <= n <= Z.min 6 5.
Proof. apply (LongestPrefix_symmetric_bounded 121 30 6 5); lia. Defined.

(** * Incremental encoding from the latter k-mer *)

Section Backward.

Lemma lor_high (v lo m : Z) :
  0 <= m -> 0 <= lo < 2 ^ m -> Z.lor (v * 2 ^ m) lo = v * 2 ^ m + lo.
Proof.
  intros Hm Hlo. symmetry. apply Z.add_nocarry_lor.
  apply Z.bits_inj'. intros j Hj. rewrite Z.land_spec, Z.bits_0.
  destruct (Z.ltb_spec j m).
  - rewrite Z.mul_pow2_bits_low by lia. reflexivity.
  - rewrite (testbit_high lo m j) by lia. apply andb_false_r.
Qed.

Lemma shl_digit (v m : Z) :
  0 <= v < 4 -> 0 <= m <= 62 -> shl v m = v * 2 ^ m.
Proof.
  intros Hv Hm. unfold shl.
  destruct (Z.leb_spec 64 m); [lia |].
  rewrite Z.shiftl_mul_pow2 by lia. apply u64_small.
  assert (0 < 2 ^ m) by (apply Z.pow_pos_nonneg; lia).
  assert (2 ^ (m + 2) <= 2 ^ 64) by (apply Z.pow_le_mono_r; lia).
  rewrite Z.pow_add_r in * by lia. change (2 ^ 2) with 4 in *. nia.
Qed.

(** What the trusting backward encoder returns when the new first byte [a]
    has an entry. *)
Lemma MustEncodeFromLatterKmer_eq (a : byte) (rest other : list byte) (code : Z) :
  len rest + 1 <= 32 -> has_entry a ->
  MustEncodeFromLatterKmer (a :: rest) other code =
    Ret (Z.lor (base2bit a * 2 ^ (2 * len rest)) (Z.shiftr code 2), None).
Proof.
  intros Hlen Ha. pose proof (len_nonneg rest) as Hl.
  pose proof (base2bit_entry a Ha) as Hv.
  unfold MustEncodeFromLatterKmer. rewrite index_first. cbn [bind].
  destruct (Z.eqb_spec (base2bit a) 4) as [E | _]; [lia |].
  rewrite len_cons, latter_shift by lia.
  replace (2 * (1 + len rest - 1)) with (2 * len rest) by lia.
  rewrite shl_digit by lia. reflexivity.
Qed.

Lemma latter_step (a b : byte) (mid : list byte) :
  len mid + 1 <= 32 -> has_entry a -> Forall has_entry mid -> has_entry b ->
  MustEncodeFromLatterKmer (a :: mid) (mid ++ [b]) (pack (mid ++ [b]))
    = Ret (pack (a :: mid), None).
Proof.
  intros Hlen Ha Hmid Hb.
  rewrite MustEncodeFromLatterKmer_eq by assumption.
  unfold pack at 1. rewrite pack_from_snoc. fold (pack mid).
  rewrite shiftr2_digit by (apply base2bit_entry; exact Hb).
  rewrite lor_high by (pose proof (len_nonneg mid); lia || apply pack_range; exact Hmid).
  rewrite pack_cons. reflexivity.
Qed.

Lemma EncodeFromLatterKmer_consecutive (a b : byte) (mid : list byte) (code : Z) :
  EncodeFromLatterKmer (a :: mid) (mid ++ [b]) code =
  MustEncodeFromLatterKmer (a :: mid) (mid ++ [b]) code.
Proof.
  pose proof (len_nonneg mid) as Hl. unfold EncodeFromLatterKmer.
  rewrite len_snoc, len_cons.
  destruct (Z.eqb_spec (1 + len mid) 0); [lia |].
  destruct (Z.eqb_spec (1 + len mid) (len mid + 1)); [| lia]. cbn [negb].
  replace (Z.to_nat (1 + len mid - 1)) with (length mid) by (unfold len; lia).
  replace (Z.to_nat (len mid + 1 - 1)) with (length mid) by (unfold len; lia).
  rewrite take_app_length. change (drop 1 (a :: mid)) with mid.
  rewrite take_ge by lia. rewrite bytes_Equal_refl. reflexivity.
Qed.

End Backward.

(** X15. For a sequence [s] of bytes that all have an entry and [k] in
    1..32, moving the window one byte backward: from the code [Encode] gives
    for the window at [i + 1], [MustEncodeFromLatterKmer] and
    [EncodeFromLatterKmer] return the very result of [Encode] on the window
    at [i], a code and no error. *)
Theorem latter_kmer_equals_direct (s : list byte) (k i : nat) :
  (1 <= k <= 32)%nat -> (i + k < length s)%nat -> Forall has_entry s ->
  let latter := window s k (S i) in
  let kmer := window s k i in
  MustEncodeFromLatterKmer kmer latter (fst (Encode latter)) = Ret (Encode kmer)
  /\ EncodeFromLatterKmer kmer latter (fst (Encode latter)) = Ret (Encode kmer)
  /\ snd (Encode kmer) = None.
Proof.
  intros Hk Hi Hs latter kmer. unfold latter, kmer.
  destruct (window_step s k i) as (a & mid & b & Ew & Ew' & Hmid); [lia | lia |].
  pose proof (window_entries s k i Hs) as H1.
  pose proof (window_entries s k (S i) Hs) as H2.
  rewrite Ew in *. rewrite Ew' in *.
  inversion H1 as [| ? ? Ha Hm]; subst.
  apply Forall_app in H2. destruct H2 as [_ Hb]. apply Forall_inv in Hb.
  assert (Hlen : len mid + 1 <= 32) by (unfold len; lia).
  rewrite (Encode_pack (mid ++ [b])), (Encode_pack (a :: mid));
    [ | rewrite len_cons; pose proof (len_nonneg mid); lia | exact H1
      | rewrite len_snoc; pose proof (len_nonneg mid); lia
      | apply Forall_app; split; [exact Hm | constructor; [exact Hb | constructor]] ].
  cbn [fst snd]. rewrite EncodeFromLatterKmer_consecutive.
  rewrite latter_step by assumption. repeat split.
Qed.

Lemma latter_kmer_equals_direct_witness :
  let s := bytes "ACTGNNTGGTCA" in
  MustEncodeFromLatterKmer (window s 5 2) (window s 5 3) (fst (Encode (window s 5 3)))
    = Ret (Encode (window s 5 2))
  /\ EncodeFromLatterKmer (window s 5 2) (window s 5 3) (fst (Encode (window s 5 3)))
    = Ret (Encode (window s 5 2))
  /\ snd (Encode (window s 5 2)) = None.
Proof.
  apply (latter_kmer_equals_direct (bytes "ACTGNNTGGTCA") 5 2).
  - lia.
  - vm_compute. lia.
  - repeat constructor; vm_compute; discriminate.
Defined.

(** * The checks of the incremental encoders *)

Section IncrementalChecks.

Lemma len_eqb_length {A B} (s : list A) (t : list B) :
  (len s =? len t) = Nat.eqb (length s) (length t).
Proof.
  unfold len. destruct (Z.eqb_spec (Z.of_nat (length s)) (Z.of_nat (length t))),
    (Nat.eqb_spec (length s) (length t)); (reflexivity || lia).
Qed.

Lemma len_pred_nat {A} (s : list A) :
  Z.to_nat (len s - 1) = (length s - 1)%nat.
Proof. unfold len. lia. Qed.

Lemma len_eq0 {A} (s : list A) : (len s =? 0) = true <-> s = [].
Proof.
  rewrite Z.eqb_eq. unfold len. destruct s; cbn [length]; split;
    (reflexivity || discriminate || lia).
Qed.

Lemma bytes_Equal_neq (a b : list byte) : a <> b -> bytes_Equal a b = false.
Proof.
  intros H. apply not_true_is_false. intros E. apply H, bytes_Equal_eq, E.
Qed.

Lemma MustEncodeFromFormerKmer_returns (kmer other : list byte) (code : Z) :
  kmer <> [] ->
  exists r e,
    MustEncodeFromFormerKmer kmer other code = Ret (r, e)
    /\ (e = None \/ e = Some ErrIllegalBase).
Proof.
  intros Hne. destruct kmer as [| x kmer] using rev_ind; [contradiction |].
  unfold MustEncodeFromFormerKmer. rewrite index_last. cbn [bind].
  destruct (base2bit x =? 4); eexists _, _; (split; [reflexivity | tauto]).
Qed.

Lemma MustEncodeFromLatterKmer_returns (kmer other : list byte) (code : Z) :
  kmer <> [] ->
  exists r e,
    MustEncodeFromLatterKmer kmer other code = Ret (r, e)
    /\ (e = None \/ e = Some ErrIllegalBase).
Proof.
  intros Hne. destruct kmer as [| x kmer]; [contradiction |].
  unfold MustEncodeFromLatterKmer. rewrite index_first. cbn [bind].
  destruct (base2bit x =? 4); eexists _, _; (split; [reflexivity | tauto]).
Qed.

End IncrementalChecks.

(** X16. [EncodeFromFormerKmer] never panics.  It returns code 0 with
    [ErrKOverflow] for an empty k-mer (where [MustEncodeFromFormerKmer]
    panics on the index), with [ErrKMismatch] when the two k-mers differ in
    length, with [ErrNotConsecutiveKmers] when the k-mer without its last
    byte is not the former k-mer without its first byte; otherwise it
    returns what [MustEncodeFromFormerKmer] returns, which is a code with no
    error or with [ErrIllegalBase]. *)
Theorem EncodeFromFormerKmer_checks (kmer leftKmer : list byte) (leftCode : Z) :
  (kmer = [] ->
   EncodeFromFormerKmer kmer leftKmer leftCode = Ret (0, Some ErrKOverflow)
   /\ MustEncodeFromFormerKmer kmer leftKmer leftCode = Panic PanicRuntime)
  /\ (kmer <> [] -> length kmer <> length leftKmer ->
      EncodeFromFormerKmer kmer leftKmer leftCode = Ret (0, Some ErrKMismatch))
  /\ (kmer <> [] -> length kmer = length leftKmer ->
      take (length kmer - 1) kmer <> drop 1 leftKmer ->
      EncodeFromFormerKmer kmer leftKmer leftCode
        = Ret (0, Some ErrNotConsecutiveKmers))
  /\ (kmer <> [] -> length kmer = length leftKmer ->
      take (length kmer - 1) kmer = drop 1 leftKmer ->
      EncodeFromFormerKmer kmer leftKmer leftCode
        = MustEncodeFromFormerKmer kmer leftKmer leftCode)
  /\ (kmer <> [] ->
      exists r e,
        MustEncodeFromFormerKmer kmer leftKmer leftCode = Ret (r, e)
        /\ (e = None \/ e = Some ErrIllegalBase)).
Proof.
  assert (Hnz : kmer <> [] -> (len kmer =? 0) = false).
  { intros Hne. apply not_true_is_false. rewrite len_eq0. exact Hne. }
  repeat apply conj.
  - intros ->. split; reflexivity.
  - intros Hne Hlen. unfold EncodeFromFormerKmer.
    rewrite (Hnz Hne), len_eqb_length.
    destruct (Nat.eqb_spec (length kmer) (length leftKmer)); [contradiction | reflexivity].
  - intros Hne Hlen Hov. unfold EncodeFromFormerKmer.
    rewrite (Hnz Hne), len_eqb_length, Hlen, Nat.eqb_refl. cbn [negb].
    rewrite len_pred_nat, bytes_Equal_neq by exact Hov. reflexivity.
  - intros Hne Hlen Hov. unfold EncodeFromFormerKmer.
    rewrite (Hnz Hne), len_eqb_length, Hlen, Nat.eqb_refl. cbn [negb].
    rewrite len_pred_nat, Hov, bytes_Equal_refl. reflexivity.
  - apply MustEncodeFromFormerKmer_returns.
Qed.

Lemma EncodeFromFormerKmer_checks_witness :
  EncodeFromFormerKmer [] (bytes "ACGT") 27 = Ret (0, Some ErrKOverflow)
  /\ EncodeFromFormerKmer (bytes "CGT") (bytes "ACGT") 27 = Ret (0, Some ErrKMismatch)
  /\ EncodeFromFormerKmer (bytes "GGTA") (bytes "ACGT") 27
     = Ret (0, Some ErrNotConsecutiveKmers).
Proof.
  destruct (EncodeFromFormerKmer_checks [] (bytes "ACGT") 27) as (H1 & _).
  destruct (EncodeFromFormerKmer_checks (bytes "CGT") (bytes "ACGT") 27)
    as (_ & H2 & _).
  destruct (EncodeFromFormerKmer_checks (bytes "GGTA") (bytes "ACGT") 27)
    as (_ & _ & H3 & _).
  split; [apply H1; reflexivity |].
  split; [apply H2; vm_compute; discriminate |].
  apply H3; vm_compute; (discriminate || reflexivity).
Defined.

(** X17. [EncodeFromLatterKmer] never panics.  It returns code 0 with
    [ErrKOverflow] for an empty k-mer (where [MustEncodeFromLatterKmer]
    panics on the index), with [ErrKMismatch] when the two k-mers differ in
    length, with [ErrNotConsecutiveKmers] when the latter k-mer without its
    last byte is not the k-mer without its first byte; otherwise it returns
    what [MustEncodeFromLatterKmer] returns, which is a code with no error
    or with [ErrIllegalBase]. *)
Theorem EncodeFromLatterKmer_checks (kmer rightKmer : list byte) (rightCode : Z) :
  (kmer = [] ->
   EncodeFromLatterKmer kmer rightKmer rightCode = Ret (0, Some ErrKOverflow)
   /\ MustEncodeFromLatterKmer kmer rightKmer rightCode = Panic PanicRuntime)
  /\ (kmer <> [] -> length kmer <> length rightKmer ->
      EncodeFromLatterKmer kmer rightKmer rightCode = Ret (0, Some ErrKMismatch))
  /\ (kmer <> [] -> length kmer = length rightKmer ->
      take (length kmer - 1) rightKmer <> drop 1 kmer ->
      EncodeFromLatterKmer kmer rightKmer rightCode
        = Ret (0, Some ErrNotConsecutiveKmers))
  /\ (kmer <> [] -> length kmer = length rightKmer ->
      take (length kmer - 1) rightKmer = drop 1 kmer ->
      EncodeFromLatterKmer kmer rightKmer rightCode
        = MustEncodeFromLatterKmer kmer rightKmer rightCode)
  /\ (kmer <> [] ->
      exists r e,
        MustEncodeFromLatterKmer kmer rightKmer rightCode = Ret (r, e)
        /\ (e = None \/ e = Some ErrIllegalBase)).
Proof.
  assert (Hnz : kmer <> [] -> (len kmer =? 0) = false).
  { intros Hne. apply not_true_is_false. rewrite len_eq0. exact Hne. }
  assert (Htk : length kmer = length rightKmer ->
                take (Z.to_nat (len rightKmer - 1)) (drop 1 kmer) = drop 1 kmer).
  { intros Hlen. apply take_ge. rewrite length_drop, len_pred_nat. lia. }
  repeat apply conj.
  - intros ->. split; reflexivity.
  - intros Hne Hlen. unfold EncodeFromLatterKmer.
    rewrite (Hnz Hne), len_eqb_length.
    destruct (Nat.eqb_spec (length kmer) (length rightKmer)); [contradiction | reflexivity].
  - intros Hne Hlen Hov. unfold EncodeFromLatterKmer.
    rewrite (Hnz Hne), len_eqb_length, Hlen, Nat.eqb_refl, (Htk Hlen). cbn [negb].
    rewrite len_pred_nat, bytes_Equal_neq by exact Hov. reflexivity.
  - intros Hne Hlen Hov. unfold EncodeFromLatterKmer.
    rewrite (Hnz Hne), len_eqb_length, Hlen, Nat.eqb_refl, (Htk Hlen). cbn [negb].
    rewrite len_pred_nat, Hov, bytes_Equal_refl. reflexivity.
  - apply MustEncodeFromLatterKmer_returns.
Qed.

Lemma EncodeFromLatterKmer_checks_witness :
  EncodeFromLatterKmer [] (bytes "ACGT") 27 = Ret (0, Some ErrKOverflow)
  /\ EncodeFromLatterKmer (bytes "CGT") (bytes "ACGT") 27 = Ret (0, Some ErrKMismatch)
  /\ EncodeFromLatterKmer (bytes "GGTA") (bytes "ACGT") 27
     = Ret (0, Some ErrNotConsecutiveKmers).
Proof.
  destruct (EncodeFromLatterKmer_checks [] (bytes "ACGT") 27) as (H1 & _).
  destruct (EncodeFromLatterKmer_checks (bytes "CGT") (bytes "ACGT") 27)
    as (_ & H2 & _).
  destruct (EncodeFromLatterKmer_checks (bytes "GGTA") (bytes "ACGT") 27)
    as (_ & _ & H3 & _).
  split; [apply H1; reflexivity |].
  split; [apply H2; vm_compute; discriminate |].
  apply H3; vm_compute; (discriminate || reflexivity).
Defined.

(** * The trusting transforms outside the valid sizes *)

(** X18. The variants that do not check [k]: for [k] above 32 (up to
    [2^62]) the shift count [(32-k)<<1] is negative and [MustReverse],
    [MustRevComp] and [MustCanonical] panic in the runtime; for [k] at or
    below 0 (down to [-2^61]) the shift count is 64 or more and the three
    return 0, whatever the code. *)
Theorem Must_transforms_invalid_k (c k : Z) :
  0 <= c < 2 ^ 64 ->
  (32 < k <= 2 ^ 62 ->
   MustReverse c k = Panic PanicRuntime
   /\ MustRevComp c k = Panic PanicRuntime
   /\ MustCanonical c k = Panic PanicRuntime)
  /\ (- 2 ^ 61 <= k <= 0 ->
      MustReverse c k = Ret 0
      /\ MustRevComp c k = Ret 0
      /\ MustCanonical c k = Ret 0).
Proof.
  intros Hc.
  assert (Hp : 2 ^ 61 < 2 ^ 62 /\ 2 ^ 62 < 2 ^ 63) by (split; reflexivity).
  split; intros Hk.
  - assert (E : int_shl (int (32 - k)) 1 = 2 * (32 - k))
      by (rewrite int_small, int_shl_1 by lia; reflexivity).
    unfold MustReverse, MustRevComp, MustCanonical, shr_int. rewrite E.
    destruct (Z.ltb_spec (2 * (32 - k)) 0); [| lia]. repeat split.
  - assert (E : int_shl (int (32 - k)) 1 = 2 * (32 - k))
      by (rewrite int_small, int_shl_1 by lia; reflexivity).
    unfold MustReverse, MustRevComp, MustCanonical, shr_int, shr. rewrite E.
    destruct (Z.ltb_spec (2 * (32 - k)) 0); [lia |].
    destruct (Z.leb_spec 64 (2 * (32 - k))); [| lia].
    cbn [bind]. repeat split.
    destruct (Z.ltb_spec 0 c); [reflexivity | f_equal; lia].
Qed.

Lemma Must_transforms_invalid_k_witness :
  (MustReverse 27 33 = Panic PanicRuntime
   /\ MustRevComp 27 33 = Panic PanicRuntime
   /\ MustCanonical 27 33 = Panic PanicRuntime)
  /\ (MustReverse 27 0 = Ret 0
      /\ MustRevComp 27 0 = Ret 0
      /\ MustCanonical 27 0 = Ret 0).
Proof.
  destruct (Must_transforms_invalid_k 27 33) as [H1 _]; [lia |].
  destruct (Must_transforms_invalid_k 27 0) as [_ H2]; [lia |].
  split; [apply H1 | apply H2]; lia.
Defined.

(** Closes [Forall P l] on a literal list, one element at a time. *)
Ltac forall_literal tac :=
  lazy -[is_ACGT has_entry];
  repeat (apply List.Forall_cons; [tac |]); apply List.Forall_nil.

(** * More on [Encode] *)

Section EncodeMore.

Lemma Encode_loop_map (f : byte -> byte) :
  (forall b, base2bit (f b) = base2bit b) ->
  forall s acc, Encode_loop (map f s) acc = Encode_loop s acc.
Proof.
  intros Hf. induction s as [| b s IH]; intros acc; [reflexivity |].
  cbn [map Encode_loop]. rewrite Hf. destruct (base2bit b =? 4); [reflexivity |].
  apply IH.
Qed.

Lemma Encode_map (f : byte -> byte) (s : list byte) :
  (forall b, base2bit (f b) = base2bit b) -> Encode (map f s) = Encode s.
Proof.
  intros Hf. unfold Encode, len. rewrite length_map, Encode_loop_map by exact Hf.
  reflexivity.
Qed.

Lemma base2bit_upper (b : byte) : base2bit (upper b) = base2bit b.
Proof. destruct b; reflexivity. Qed.

(** The loop over a legal prefix that fits. *)
Lemma Encode_loop_app (pre rest : list byte) :
  forall acc m,
    Forall has_entry pre ->
    0 <= m -> m + len pre <= 32 -> 0 <= acc < 2 ^ (2 * m) ->
    Encode_loop (pre ++ rest) acc = Encode_loop rest (pack_from acc pre).
Proof.
  induction pre as [| b pre IH]; intros acc m Hp Hm Hlen Hacc; [reflexivity |].
  rewrite len_cons in Hlen. pose proof (len_nonneg pre) as Hl.
  inversion Hp as [| ? ? Hb Hp']; subst.
  pose proof (base2bit_entry b Hb) as Hv.
  assert (Hpow : 2 ^ (2 * (m + 1)) <= 2 ^ 64) by (apply pow4_le_64; lia).
  rewrite pow4_succ in Hpow by lia.
  cbn [app Encode_loop]. rewrite shl2_small by lia.
  destruct (Z.eqb_spec (base2bit b) 4) as [E | _]; [lia |].
  rewrite lor_digit by exact Hv.
  rewrite (IH _ (m + 1)); [reflexivity | exact Hp' | lia | lia |].
  rewrite pow4_succ by lia. lia.
Qed.

Lemma ACGT_order (a b : byte) :
  is_ACGT a -> is_ACGT b ->
  N.compare (Byte.to_N a) (Byte.to_N b) = Z.compare (base2bit a) (base2bit b)
  /\ (base2bit a = base2bit b -> a = b).
Proof.
  unfold is_ACGT. cbn.
  intros [<- | [<- | [<- | [<- | []]]]] [<- | [<- | [<- | [<- | []]]]];
    split; (reflexivity || (vm_compute; discriminate)).
Qed.

Lemma bytes_Compare_pack (s : list byte) :
  forall t,
    length s = length t -> Forall is_ACGT s -> Forall is_ACGT t ->
    bytes_Compare s t = Z.compare (pack s) (pack t).
Proof.
  induction s as [| a s IH]; intros [| b t] Hlen Hs Ht; try discriminate Hlen.
  - reflexivity.
  - inversion Hs as [| ? ? Ha Hs']; inversion Ht as [| ? ? Hb Ht']; subst.
    injection Hlen as Hlen.
    destruct (ACGT_order a b Ha Hb) as [Hcmp Hinj].
    assert (Hes : Forall has_entry s)
      by (eapply Forall_impl; [exact Hs' | exact is_ACGT_entry]).
    assert (Het : Forall has_entry t)
      by (eapply Forall_impl; [exact Ht' | exact is_ACGT_entry]).
    pose proof (pack_range s Hes) as Rs. pose proof (pack_range t Het) as Rt.
    pose proof (base2bit_entry a (is_ACGT_entry a Ha)) as Va.
    pose proof (base2bit_entry b (is_ACGT_entry b Hb)) as Vb.
    assert (El : len t = len s) by (unfold len; lia). rewrite El in Rt.
    cbn [bytes_Compare]. rewrite Hcmp, !pack_cons, El.
    set (P := 2 ^ (2 * len s)) in *.
    destruct (Z.compare_spec (base2bit a) (base2bit b)) as [E | L | G].
    + rewrite E, IH by assumption.
      symmetry. apply Z.add_compare_mono_l.
    + symmetry. apply Z.compare_lt_iff. nia.
    + symmetry. apply Z.compare_gt_iff. nia.
Qed.

End EncodeMore.

(** X19. [Encode] does not distinguish upper and lower case: a sequence and
    its upper-case form give the same code and the same error. *)
Theorem Encode_case_insensitive (s : list byte) :
  Encode (map upper s) = Encode s.
Proof. apply Encode_map. exact base2bit_upper. Qed.

(** X20. When a sequence of 1..32 bytes has a first byte without entry in
    [base2bit], after a prefix [pre] of bytes that all have one, [Encode]
    returns [ErrIllegalBase] together with the code of [pre] shifted left by
    one group (not zero): the shift is done before the byte is looked up. *)
Theorem Encode_illegal_partial_code (pre post : list byte) (b : byte) :
  len (pre ++ b :: post) <= 32 ->
  Forall has_entry pre -> base2bit b = 4 ->
  Encode (pre ++ b :: post) = (4 * pack pre, Some ErrIllegalBase).
Proof.
  intros Hlen Hpre Hb.
  rewrite len_app, len_cons in Hlen.
  pose proof (len_nonneg pre) as Hl. pose proof (len_nonneg post) as Hl'.
  rewrite Encode_in_range by (rewrite len_app, len_cons; lia).
  rewrite (Encode_loop_app pre (b :: post) 0 0) by (assumption || lia || (cbn; lia)).
  fold (pack pre). pose proof (pack_range pre Hpre) as Hr.
  assert (Hpow : 2 ^ (2 * (len pre + 1)) <= 2 ^ 64) by (apply pow4_le_64; lia).
  rewrite pow4_succ in Hpow by lia.
  cbn [Encode_loop]. rewrite shl2_small by lia. rewrite Hb. reflexivity.
Qed.

Lemma Encode_illegal_partial_code_witness :
  Encode (bytes "ACGT" ++ "X"%byte :: bytes "AC") = (4 * pack (bytes "ACGT"), Some ErrIllegalBase).
Proof.
  apply (Encode_illegal_partial_code (bytes "ACGT") (bytes "AC") "X"%byte).
  - vm_compute. discriminate.
  - repeat constructor; vm_compute; discriminate.
  - reflexivity.
Defined.

(** X21. [Encode] keeps the order: for two sequences over A, C, G, T of the
    same length (1..32), comparing the two codes as integers gives what
    [bytes.Compare] gives on the sequences. *)
Theorem Encode_preserves_order (s t : list byte) :
  1 <= len s <= 32 -> length s = length t ->
  Forall is_ACGT s -> Forall is_ACGT t ->
  snd (Encode s) = None /\ snd (Encode t) = None
  /\ Z.compare (fst (Encode s)) (fst (Encode t)) = bytes_Compare s t.
Proof.
  intros Hlen Heq Hs Ht.
  assert (Hlt : 1 <= len t <= 32) by (unfold len in *; lia).
  rewrite !Encode_pack
    by (assumption || (eapply Forall_impl; [eassumption | exact is_ACGT_entry])).
  cbn [fst snd]. repeat split. symmetry. apply bytes_Compare_pack; assumption.
Qed.

Lemma Encode_preserves_order_witness :
  snd (Encode (bytes "ACGT")) = None /\ snd (Encode (bytes "ACTA")) = None
  /\ Z.compare (fst (Encode (bytes "ACGT"))) (fst (Encode (bytes "ACTA")))
     = bytes_Compare (bytes "ACGT") (bytes "ACTA").
Proof.
  apply (Encode_preserves_order (bytes "ACGT") (bytes "ACTA")).
  - vm_compute. split; discriminate.
  - reflexivity.
  - forall_literal ltac:(vm_compute; tauto).
  - forall_literal ltac:(vm_compute; tauto).
Defined.

(** * The [KmerCode] wrapper *)

Section Wrapper.

Lemma KmerCode_Equal_eq (a b : KmerCode) : KmerCode.Equal a b = true <-> a = b.
Proof.
  unfold KmerCode.Equal. rewrite andb_true_iff, !Z.eqb_eq.
  destruct a, b; cbn. split; [intros [-> ->]; reflexivity | intros [= -> ->]; tauto].
Qed.

Lemma BitsString_loop_app (l1 l2 : list byte) :
  forall buf,
    KmerCode.BitsString_loop (l1 ++ l2) buf =
    (do b1 <- KmerCode.BitsString_loop l1 buf; KmerCode.BitsString_loop l2 b1).
Proof.
  induction l1 as [| x l1 IH]; intros buf; [reflexivity |].
  cbn [app KmerCode.BitsString_loop].
  destruct (index bit2str_table (base2bit x)) as [s | p]; [| reflexivity].
  cbn [bind]. apply IH.
Qed.

(** The entry of [bit2str] for a group is its two bits as characters. *)
Lemma bit2str_group (c : Z) :
  index bit2str_table (base2bit (bit2base (Z.land c 3))) =
  Ret [ (if Z.odd (Z.shiftr c 1) then "1"%byte else "0"%byte);
        (if Z.odd c then "1"%byte else "0"%byte) ].
Proof.
  pose proof (land3_range c) as Hv.
  rewrite base2bit_bit2base by exact Hv.
  assert (E0 : Z.odd c = Z.testbit (Z.land c 3) 0).
  { rewrite Z.land_spec, Z.bit0_odd. change (Z.testbit 3 0) with true.
    rewrite andb_true_r. reflexivity. }
  assert (E1 : Z.odd (Z.shiftr c 1) = Z.testbit (Z.land c 3) 1).
  { rewrite Z.land_spec, <- Z.testbit_odd. change (Z.testbit 3 1) with true.
    rewrite andb_true_r. reflexivity. }
  rewrite E0, E1.
  assert (E : Z.land c 3 = 0 \/ Z.land c 3 = 1 \/ Z.land c 3 = 2 \/ Z.land c 3 = 3)
    by lia.
  destruct E as [-> | [-> | [-> | ->]]]; reflexivity.
Qed.

Lemma BitsString_loop_bases (n : nat) :
  forall c buf,
    KmerCode.BitsString_loop (bases n c) buf = Ret (buf ++ binary (2 * n) c).
Proof.
  induction n as [| n IH]; intros c buf.
  - cbn. rewrite app_nil_r. reflexivity.
  - cbn [bases]. rewrite BitsString_loop_app, IH. cbn [bind KmerCode.BitsString_loop].
    rewrite bit2str_group. cbn [bind].
    replace (2 * S n)%nat with (S (S (2 * n))) by lia. cbn [binary].
    rewrite Z.shiftr_shiftr by lia. change (1 + 1) with 2.
    rewrite <- !app_assoc. reflexivity.
Qed.

End Wrapper.

(** X22. For a sequence [s] over A, C, G, T of 1..32 bytes, [NewKmerCode]
    returns without error a [KmerCode] of length [len s] whose code is
    below [2^(2k)], and its [Bytes] and [String] give [s] back.  When
    [Encode] fails, [NewKmerCode] returns the zero [KmerCode] with that
    error, not the partial code. *)
Theorem NewKmerCode_roundtrip (s : list byte) :
  (1 <= len s <= 32 -> Forall is_ACGT s ->
   exists kcode,
     NewKmerCode s = (kcode, None)
     /\ K kcode = len s
     /\ valid_KmerCode kcode
     /\ KmerCode.Bytes kcode = Ret s
     /\ KmerCode.String kcode = Ret s)
  /\ (snd (Encode s) <> None ->
      NewKmerCode s = (mkKmerCode 0 0, snd (Encode s))).
Proof.
  split.
  - intros Hlen Hs.
    assert (He : Forall has_entry s)
      by (eapply Forall_impl; [exact Hs | exact is_ACGT_entry]).
    pose proof (pack_range s He) as Hr.
    exists (mkKmerCode (pack s) (len s)).
    unfold NewKmerCode, KmerCode.Bytes, KmerCode.String, valid_KmerCode.
    rewrite Encode_pack by assumption. cbn [Code K].
    rewrite Decode_eq by lia.
    replace (Z.to_nat (len s)) with (length s) by (unfold len; lia).
    rewrite bases_pack by exact Hs. repeat split; lia.
  - intros Herr. unfold NewKmerCode.
    destruct (Encode s) as [code [e |]]; [reflexivity | contradiction].
Qed.

Lemma NewKmerCode_roundtrip_witness :
  (exists kcode,
     NewKmerCode (bytes "GATTACA") = (kcode, None)
     /\ K kcode = len (bytes "GATTACA")
     /\ valid_KmerCode kcode
     /\ KmerCode.Bytes kcode = Ret (bytes "GATTACA")
     /\ KmerCode.String kcode = Ret (bytes "GATTACA"))
  /\ NewKmerCode (bytes "GAXTACA") = (mkKmerCode 0 0, snd (Encode (bytes "GAXTACA"))).
Proof.
  destruct (NewKmerCode_roundtrip (bytes "GATTACA")) as [H1 _].
  destruct (NewKmerCode_roundtrip (bytes "GAXTACA")) as [_ H2].
  split.
  - apply H1; [vm_compute; split; discriminate |].
    forall_literal ltac:(vm_compute; tauto).
  - apply H2. vm_compute. discriminate.
Defined.

(** X23. On a valid [KmerCode], reversing twice and complementing twice
    give a [KmerCode] [Equal] to the first one, and the complement followed
    by the reverse is [Equal] to [RevComp]; none of the methods panics. *)
Theorem KmerCode_Rev_Comp_identities (kcode : KmerCode) :
  valid_KmerCode kcode ->
  exists rr cr rc,
    (do r <- KmerCode.Rev kcode; KmerCode.Rev r) = Ret rr
    /\ KmerCode.Equal rr kcode = true
    /\ KmerCode.Equal (KmerCode.Comp (KmerCode.Comp kcode)) kcode = true
    /\ KmerCode.Rev (KmerCode.Comp kcode) = Ret cr
    /\ KmerCode.RevComp kcode = Ret rc
    /\ KmerCode.Equal cr rc = true.
Proof.
  destruct kcode as [c k]. unfold valid_KmerCode. cbn [Code K]. intros [Hk Hc].
  unfold KmerCode.Rev, KmerCode.Comp, KmerCode.RevComp. cbn [Code K].
  rewrite (MustReverse_eq k Hk c), MustRevComp_eq, !MustComplement_eq by exact Hk.
  cbn [bind Code K]. rewrite !MustReverse_eq by exact Hk. cbn [bind].
  rewrite reversed_invol, complement_invol by assumption.
  rewrite <- revcomp_as_composition by exact Hk.
  eexists _, _, _. repeat split; apply KmerCode_Equal_eq; reflexivity.
Qed.

Lemma KmerCode_Rev_Comp_identities_witness :
  exists rr cr rc,
    (do r <- KmerCode.Rev (mkKmerCode 30 4); KmerCode.Rev r) = Ret rr
    /\ KmerCode.Equal rr (mkKmerCode 30 4) = true
    /\ KmerCode.Equal (KmerCode.Comp (KmerCode.Comp (mkKmerCode 30 4)))
                      (mkKmerCode 30 4) = true
    /\ KmerCode.Rev (KmerCode.Comp (mkKmerCode 30 4)) = Ret cr
    /\ KmerCode.RevComp (mkKmerCode 30 4) = Ret rc
    /\ KmerCode.Equal cr rc = true.
Proof.
  apply (KmerCode_Rev_Comp_identities (mkKmerCode 30 4)).
  unfold valid_KmerCode. cbn [Code K]. lia.
Defined.

(** X24. On a valid [KmerCode] the methods [Rev], [Comp], [RevComp] and
    [Canonical] return the codes that the checked functions [Reverse],
    [Complement], [RevComp] and [Canonical] return, with the same [K]. *)
Theorem KmerCode_methods_agree (kcode : KmerCode) :
  valid_KmerCode kcode ->
  KmerCode.Rev kcode
    = (do c <- Reverse (Code kcode) (K kcode); Ret (mkKmerCode c (K kcode)))
  /\ Ret (KmerCode.Comp kcode)
    = (do c <- Complement (Code kcode) (K kcode); Ret (mkKmerCode c (K kcode)))
  /\ KmerCode.RevComp kcode
    = (do c <- RevComp (Code kcode) (K kcode); Ret (mkKmerCode c (K kcode)))
  /\ KmerCode.Canonical kcode
    = (do c <- Canonical (Code kcode) (K kcode); Ret (mkKmerCode c (K kcode))).
Proof.
  destruct kcode as [c k]. unfold valid_KmerCode. cbn [Code K]. intros [Hk Hc].
  unfold KmerCode.Canonical, KmerCode.Rev, KmerCode.Comp, KmerCode.RevComp,
    Reverse, Complement, RevComp, Canonical.
  cbn [Code K]. rewrite !check_k_valid by exact Hk.
  split; [reflexivity |]. split; [reflexivity |]. split; [reflexivity |].
  unfold MustCanonical.
  pose proof (MustRevComp_eq k Hk c) as E. rewrite E.
  unfold MustRevComp in E. rewrite E.
  cbn [bind Code].
  destruct (Z.shiftr (cascade (not64 c)) (64 - 2 * k) <? c); reflexivity.
Qed.

Lemma KmerCode_methods_agree_witness :
  KmerCode.Canonical (mkKmerCode 255 4)
  = (do c <- Canonical 255 4; Ret (mkKmerCode c 4)).
Proof.
  destruct (KmerCode_methods_agree (mkKmerCode 255 4)) as (_ & _ & _ & H).
  - unfold valid_KmerCode. cbn [Code K]. lia.
  - exact H.
Defined.

(** X25. On a valid [KmerCode], [BitsString] returns the [2K] low bits of
    the code written as the characters 0 and 1, most significant first. *)
Theorem KmerCode_BitsString_binary (kcode : KmerCode) :
  valid_KmerCode kcode ->
  KmerCode.BitsString kcode
  = Ret (binary (2 * Z.to_nat (K kcode)) (Code kcode)).
Proof.
  destruct kcode as [c k]. unfold valid_KmerCode. cbn [Code K]. intros [Hk Hc].
  unfold KmerCode.BitsString. cbn [Code K].
  rewrite Decode_eq by lia. cbn [bind].
  rewrite BitsString_loop_bases. reflexivity.
Qed.

Lemma KmerCode_BitsString_binary_witness :
  KmerCode.BitsString (mkKmerCode 27 4) = Ret (binary (2 * Z.to_nat 4) 27).
Proof.
  apply (KmerCode_BitsString_binary (mkKmerCode 27 4)).
  unfold valid_KmerCode. cbn [Code K]. lia.
Defined.

(** X26. For a sequence [s] of bytes that all have an entry and [k] in
    1..32, [NewKmerCodeFromFormerOne] and [NewKmerCodeMustFromFormerOne],
    given the [KmerCode] that [NewKmerCode] makes of the window at [i],
    return what [NewKmerCode] makes of the window at [i + 1]. *)
Theorem NewKmerCodeFromFormerOne_equals_direct (s : list byte) (k i : nat) :
  (1 <= k <= 32)%nat -> (i + k < length s)%nat -> Forall has_entry s ->
  let leftKmer := window s k i in
  let kmer := window s k (S i) in
  let preKcode := fst (NewKmerCode leftKmer) in
  NewKmerCodeFromFormerOne kmer leftKmer preKcode = Ret (NewKmerCode kmer)
  /\ NewKmerCodeMustFromFormerOne kmer leftKmer preKcode = Ret (NewKmerCode kmer)
  /\ snd (NewKmerCode kmer) = None.
Proof.
  intros Hk Hi Hs leftKmer kmer preKcode. unfold preKcode, leftKmer, kmer.
  destruct (window_step s k i) as (a & mid & b & Ew & Ew' & Hmid); [lia | lia |].
  pose proof (window_entries s k i Hs) as H1.
  pose proof (window_entries s k (S i) Hs) as H2.
  rewrite Ew in *. rewrite Ew' in *.
  assert (Hb : has_entry b).
  { apply Forall_app in H2. destruct H2 as [_ Hb]. apply Forall_inv in Hb. exact Hb. }
  assert (Hlen : len mid + 1 <= 32) by (unfold len; lia).
  pose proof (len_nonneg mid) as Hl.
  unfold NewKmerCode, NewKmerCodeFromFormerOne, NewKmerCodeMustFromFormerOne.
  rewrite (Encode_pack (a :: mid)), (Encode_pack (mid ++ [b]))
    by (assumption || (rewrite ?len_cons, ?len_snoc; lia)).
  cbn [fst snd Code]. rewrite EncodeFromFormerKmer_consecutive.
  rewrite former_step by assumption. cbn [bind]. repeat split.
Qed.

Lemma NewKmerCodeFromFormerOne_equals_direct_witness :
  let s := bytes "ACTGNNTGGTCA" in
  NewKmerCodeFromFormerOne (window s 5 3) (window s 5 2) (fst (NewKmerCode (window s 5 2)))
    = Ret (NewKmerCode (window s 5 3))
  /\ NewKmerCodeMustFromFormerOne (window s 5 3) (window s 5 2)
       (fst (NewKmerCode (window s 5 2)))
    = Ret (NewKmerCode (window s 5 3))
  /\ snd (NewKmerCode (window s 5 3)) = None.
Proof.
  apply (NewKmerCodeFromFormerOne_equals_direct (bytes "ACTGNNTGGTCA") 5 2).
  - lia.
  - vm_compute. lia.
  - repeat constructor; vm_compute; discriminate.
Defined.

(** * The complement as a subtraction *)

Lemma complement_sum (c n : Z) :
  0 <= n -> 0 <= c < 2 ^ n -> Z.lxor c (Z.ones n) + c = 2 ^ n - 1.
Proof.
  intros Hn Hc.
  assert (Hd : Z.land (Z.lxor c (Z.ones n)) c = 0).
  { apply Z.bits_inj'. intros j Hj.
    rewrite Z.land_spec, Z.lxor_spec, Z.testbit_ones, Z.bits_0 by lia.
    destruct (Z.leb_spec 0 j); [| lia]. cbn [andb].
    destruct (Z.ltb_spec j n).
    - destruct (Z.testbit c j); reflexivity.
    - rewrite (testbit_high c n j) by lia. reflexivity. }
  rewrite (Z.add_nocarry_lxor _ _ Hd).
  rewrite Z.lxor_comm, <- Z.lxor_assoc, Z.lxor_nilpotent, Z.lxor_0_l.
  rewrite Z.ones_equiv. lia.
Qed.

(** X27. For a valid [k] and a code [c] below [2^(2k)], the complement is
    the distance to the largest code of that length:
    [c + Complement c k = 4^k - 1]. *)
Theorem Complement_adds_to_max (c k : Z) :
  1 <= k <= 32 -> 0 <= c < 2 ^ (2 * k) ->
  exists r,
    Complement c k = Ret r /\ MustComplement c k = r
    /\ c + r = 2 ^ (2 * k) - 1.
Proof.
  intros Hk Hc. exists (Z.lxor c (Z.ones (2 * k))).
  rewrite Complement_eq, MustComplement_eq by exact Hk.
  split; [reflexivity |]. split; [reflexivity |].
  rewrite Z.add_comm. apply complement_sum; lia.
Qed.

Lemma Complement_adds_to_max_witness :
  exists r,
    Complement 27 4 = Ret r /\ MustComplement 27 4 = r
    /\ 27 + r = 2 ^ (2 * 4) - 1.
Proof. apply (Complement_adds_to_max 27 4); lia. Defined.
